(** * Document Marker Pipeline (2gemini.py): model and verified properties

    A shallow embedding of [src/2gemini.py].  The script reads a document,
    normalises it with four regular-expression substitutions, sends it to a
    remote text model, strips a Markdown code fence from the answer and
    writes the result to an output file.

    Conventions of the model
    - A Python [str] is a list of Unicode code points ([list N]).
    - File-system paths and environment-variable names are [string]s.  The
      file system is a map from paths to entries: a path stands for the
      entry it is spelled as, so the map is exact for a POSIX file system
      without links and for paths in normal form.  Two spellings of one
      path ([doc.md] and [./doc.md]) are two keys of the map; [abspath]
      tells that they are one path, and the statements that need two paths
      to be different compare them by [abspath].
    - The text of a [File] entry is what [f.read()] returns for it and what
      [f.write()] was given, after the newline translation of text mode.
    - [re.sub], [str.strip], [str.lower], [os.path.dirname],
      [os.path.basename], [os.path.join], [os.path.normpath],
      [os.path.abspath], [os.makedirs] and [load_dotenv] are library
      functions; they are modelled from their documented behaviour (and,
      for [os.makedirs] and [os.path.normpath], after their source),
      restricted to what this script uses.
    - Everything the script cannot control (the remote model, the I/O
      failures of the operating system, the contents of the settings files)
      is an explicit [oracle] argument. *)

From Stdlib Require Import NArith Ascii String.
From stdpp Require Import gmap strings list.

Local Open Scope N_scope.
Local Open Scope list_scope.

(** ** Text *)

Abbreviation text := (list N).

Definition txt (s : string) : text :=
  map N_of_ascii (list_ascii_of_string s).

Definition NL : N := 10.
Definition LT : N := 60.
Definition GT : N := 62.
Definition SLASH : N := 47.
Definition ZERO : N := 48.
Definition BACKTICK : N := 96.

(** Unicode white space, the characters for which [str.isspace] holds.  The
    same set is used by [\s] in a [str] pattern and by [str.strip]. *)
Definition is_space (c : N) : bool :=
  ((9 <=? c) && (c <=? 13)) || ((28 <=? c) && (c <=? 32))
  || (c =? 133) || (c =? 160) || (c =? 5760)
  || ((8192 <=? c) && (c <=? 8202))
  || (c =? 8232) || (c =? 8233) || (c =? 8239) || (c =? 8287)
  || (c =? 12288).

(** ** Regular expressions

    Every pattern of the script is a sequence of single-character classes,
    each with a quantifier.  [match_here] is the backtracking matcher of
    [re] on that fragment: quantifiers are greedy and give characters back
    one at a time until the rest of the pattern matches.  It returns the
    number of characters of the match found at the head of the text. *)

Inductive quant := One | Opt | Star | Plus.

Record item := Item { accepts : N -> bool; how : quant }.

Abbreviation pattern := (list item).

Fixpoint greedy (cls : N -> bool) (k : text -> option nat) (s : text)
  : option nat :=
  match s with
  | c :: s' =>
      if cls c then
        match greedy cls k s' with
        | Some n => Some (S n)
        | None => k s
        end
      else k s
  | [] => k s
  end.

Fixpoint match_here (p : pattern) (s : text) : option nat :=
  match p with
  | [] => Some O
  | Item cls q :: p' =>
      match q with
      | One =>
          match s with
          | c :: s' => if cls c then S <$> match_here p' s' else None
          | [] => None
          end
      | Opt =>
          match s with
          | c :: s' =>
              if cls c then
                match match_here p' s' with
                | Some n => Some (S n)
                | None => match_here p' s
                end
              else match_here p' s
          | [] => match_here p' s
          end
      | Star => greedy cls (match_here p') s
      | Plus =>
          match s with
          | c :: s' => if cls c then S <$> greedy cls (match_here p') s' else None
          | [] => None
          end
      end
  end.

(** [re.sub(p, repl, s)]: scan from the left; where the pattern matches,
    emit [repl] and resume after the match; elsewhere copy the character.
    [skip] counts the characters of the current match that are still to be
    dropped.  The patterns of this script never match the empty string
    (see [match_here_nonempty] below), so the empty-match rule of [re.sub]
    is not modelled: a match of length zero is treated as no match. *)
Fixpoint sub_from (p : pattern) (repl : text) (skip : nat) (s : text) : text :=
  match s with
  | [] => []
  | c :: s' =>
      match skip with
      | S k => sub_from p repl k s'
      | O =>
          match match_here p s with
          | Some (S n) => repl ++ sub_from p repl n s'
          | _ => c :: sub_from p repl O s'
          end
      end
  end.

Definition re_sub (p : pattern) (repl : text) (s : text) : text :=
  sub_from p repl O s.

(** *** The four patterns *)

Definition lit (c : N) : N -> bool := N.eqb c.

(** A cased letter under [re.IGNORECASE]: the letter in either case. *)
Definition lit_nocase (lower upper : N) : N -> bool :=
  fun c => (c =? lower) || (c =? upper).

(** Under [re.IGNORECASE] a [str] pattern letter [i] also matches U+0130 and
    U+0131 (the case-folding exceptions of the [re] module). *)
Definition lit_nocase_i : N -> bool :=
  fun c => (c =? 105) || (c =? 73) || (c =? 304) || (c =? 305).

Definition not_gt : N -> bool := fun c => negb (c =? GT).

(** line 68: [r"<br\s*/?>"] with [re.IGNORECASE] *)
Definition br_pattern : pattern :=
  [ Item (lit LT) One; Item (lit_nocase 98 66) One; Item (lit_nocase 114 82) One;
    Item is_space Star; Item (lit SLASH) Opt; Item (lit GT) One ].

(** line 69: [r"\n\s*\n"] *)
Definition blank_pattern : pattern :=
  [ Item (lit NL) One; Item is_space Star; Item (lit NL) One ].

(** line 72: [r"<img\s+[^>]*>"] with [re.IGNORECASE] *)
Definition img_pattern : pattern :=
  [ Item (lit LT) One; Item lit_nocase_i One; Item (lit_nocase 109 77) One;
    Item (lit_nocase 103 71) One; Item is_space Plus; Item not_gt Star;
    Item (lit GT) One ].

(** line 73: [r"\n\n0\n\n"] *)
Definition zero_pattern : pattern :=
  [ Item (lit NL) One; Item (lit NL) One; Item (lit ZERO) One;
    Item (lit NL) One; Item (lit NL) One ].

(** ** Normalisation (lines 68-73) *)

Definition replace_br (t : text) : text := re_sub br_pattern [NL] t.
Definition collapse_blank (t : text) : text := re_sub blank_pattern [NL; NL] t.
Definition remove_img (t : text) : text := re_sub img_pattern [] t.
Definition remove_zero (t : text) : text := re_sub zero_pattern [NL; NL] t.

(** [str.lower] on a path.  Only the ASCII letters are mapped.  A non-ASCII
    character never lowers to a string in which an ASCII letter is followed
    by [g] or [p], and [k] does not occur in the needle, so the test below
    has the same answer as with the full Unicode mapping. *)
Definition lower_ascii (a : ascii) : ascii :=
  let n := nat_of_ascii a in
  if ((65 <=? n) && (n <=? 90))%nat then ascii_of_nat (n + 32) else a.

Fixpoint str_lower (s : string) : string :=
  match s with
  | EmptyString => EmptyString
  | String a s' => String (lower_ascii a) (str_lower s')
  end.

(** [needle in s] for strings *)
Fixpoint str_contains (needle s : string) : bool :=
  String.prefix needle s ||
  match s with
  | EmptyString => false
  | String _ s' => str_contains needle s'
  end.

Definition is_digipanp (file_path : string) : bool :=
  str_contains "digipanp" (str_lower file_path).

Definition digipanp_cleanup (t : text) : text :=
  remove_zero (remove_img t).

Definition normalize (file_path : string) (raw_text : text) : text :=
  let processed_text := replace_br raw_text in
  let processed_text := collapse_blank processed_text in
  if is_digipanp file_path then digipanp_cleanup processed_text
  else processed_text.

(** ** Post-processing of the answer (lines 123-126) *)

Fixpoint lstrip (t : text) : text :=
  match t with
  | c :: t' => if is_space c then lstrip t' else t
  | [] => []
  end.

Definition rstrip (t : text) : text := rev (lstrip (rev t)).

(** [str.strip()] *)
Definition strip (t : text) : text := rstrip (lstrip t).

(** [t.startswith(p)] *)
Fixpoint starts_with (p t : text) : bool :=
  match p, t with
  | [], _ => true
  | a :: p', b :: t' => (a =? b) && starts_with p' t'
  | _ :: _, [] => false
  end.

(** [t.endswith(p)] *)
Definition ends_with (p t : text) : bool := starts_with (rev p) (rev t).

Definition fence_open : text := txt "```markdown".
Definition fence_close : text := txt "```".

(** [t[n:]] is [drop n t]; [t[:-n]] is [take (length t - n) t]. *)
Definition post_process (generated_text : text) : text :=
  if starts_with fence_open (strip generated_text) then
    let generated_text :=
      strip (drop (length fence_open) (strip generated_text)) in
    if ends_with fence_close (strip generated_text) then
      strip (take (length (strip generated_text) - length fence_close)
                  (strip generated_text))
    else generated_text
  else generated_text.

(** ** Paths *)

Definition is_sep (a : ascii) : bool := Ascii.eqb a "/".

(** [p[:p.rfind("/") + 1]] *)
Fixpoint upto_last_sep (p : list ascii) : list ascii :=
  match p with
  | [] => []
  | a :: p' =>
      match upto_last_sep p' with
      | [] => if is_sep a then [a] else []
      | h => a :: h
      end
  end.

Fixpoint drop_seps (p : list ascii) : list ascii :=
  match p with
  | a :: p' => if is_sep a then drop_seps p' else p
  | [] => []
  end.

(** The characters of [os.path.dirname]: the head without the separators
    at its end, unless it is made of separators only. *)
Definition dirname_chars (l : list ascii) : list ascii :=
  if forallb is_sep (upto_last_sep l) then upto_last_sep l
  else rev (drop_seps (rev (upto_last_sep l))).

(** [os.path.dirname] (POSIX) *)
Definition dirname (p : string) : string :=
  let head := upto_last_sep (list_ascii_of_string p) in
  string_of_list_ascii
    (if forallb is_sep head then head else rev (drop_seps (rev head))).

(** [os.path.join(a, b)] (POSIX) *)
Definition path_join (a b : string) : string :=
  if String.prefix "/" b then b
  else
    match last (list_ascii_of_string a) with
    | Some c => if is_sep c then (a ++ b)%string else (a ++ "/" ++ b)%string
    | None => b
    end.

(** [p[p.rfind("/") + 1:]], that is [os.path.basename] (POSIX) *)
Definition basename (p : string) : string :=
  let l := list_ascii_of_string p in
  string_of_list_ascii (drop (length (upto_last_sep l)) l).

(** The last component of [p] is no file name: [p] ends in a separator (or
    is empty), or in [.] or [..].  Such a path names a directory. *)
Definition names_directory (p : string) : bool :=
  String.eqb (basename p) "" || String.eqb (basename p) "."
  || String.eqb (basename p) "..".

(** [p] is made of separators only: the root directory.  (Also true of the
    empty path, which the callers treat apart.) *)
Definition all_seps (p : string) : bool :=
  forallb is_sep (list_ascii_of_string p).

(** [a] is above [k]: [k] is [a], a separator, and more. *)
Definition above (a k : string) : bool := String.prefix (a ++ "/") k.

(** [path.split("/")] *)
Fixpoint split_sep (l : list ascii) : list (list ascii) :=
  match l with
  | [] => [[]]
  | a :: l' =>
      if is_sep a then [] :: split_sep l'
      else
        match split_sep l' with
        | c :: cs => (a :: c) :: cs
        | [] => [[a]]
        end
  end.

(** The loop of [os.path.normpath] (POSIX) over the components. *)
Definition normpath_step (initial_slashes : nat) (new_comps : list string)
    (comp : string) : list string :=
  if String.eqb comp "" || String.eqb comp "." then new_comps
  else if negb (String.eqb comp "..")
          || ((initial_slashes =? 0)%nat
              && match new_comps with [] => true | _ => false end)
          || match last new_comps with
             | Some c => String.eqb c ".."
             | None => false
             end
       then new_comps ++ [comp]
       else removelast new_comps.

(** [os.path.normpath] (POSIX): empty and [.] components go, a [..]
    takes the component before it along, and of the slashes at the head
    one is kept (two, when there are exactly two). *)
Definition normpath (path : string) : string :=
  if String.eqb path "" then "."
  else
    let initial_slashes :=
      if String.prefix "/" path then
        if String.prefix "//" path && negb (String.prefix "///" path)
        then 2%nat else 1%nat
      else 0%nat in
    let comps :=
      map string_of_list_ascii (split_sep (list_ascii_of_string path)) in
    let new_comps := fold_left (normpath_step initial_slashes) comps [] in
    let path :=
      (string_of_list_ascii (replicate initial_slashes "/"%char)
       ++ String.concat "/" new_comps)%string in
    if String.eqb path "" then "." else path.

(** ** The world: file system, environment, standard output *)

(** The instances of [Exception] that the script can meet. *)
Inductive error :=
  | FileNotFoundError (p : string)
  | IsADirectoryError (p : string)
  | FileExistsError (p : string)
  | NotADirectoryError (p : string)
  | Fault (what : string).   (* any other [Exception] raised by the operating
                                system or by a library *)

(** What can be raised: an [Exception], which [except Exception] catches,
    or the [SystemExit] of [exit()], which it does not.  Interrupts from
    outside the program are not modelled. *)
Inductive exn :=
  | Exception (e : error)
  | SystemExit.

(** One constructor per [print] call of the script, with its line number. *)
Inductive msg :=
  | MsgDotenvWarning (e : error)               (* 19 *)
  | MsgKeyMissing                              (* 24 *)
  | MsgConfigured                              (* 31 *)
  | MsgConfigureFailed (e : error)             (* 34 *)
  | MsgNotConfigured                           (* 50 *)
  | MsgNotFound (file_path : string)           (* 55 *)
  | MsgReading (file_path : string)            (* 58 *)
  | MsgReadOk (file_path : string)             (* 62 *)
  | MsgReadFailed (file_path : string) (e : error) (* 64 *)
  | MsgDigipanp                                (* 71 *)
  | MsgPreprocessed (file_path : string)       (* 75 *)
  | MsgModelLoaded (model_name : string)       (* 98 *)
  | MsgCalling                                 (* 100 *)
  | MsgApiOk                                   (* 107 *)
  | MsgNoText                                  (* 109 *)
  | MsgBlocked (reason : string)               (* 111 *)
  | MsgApiFailed (e : error)                   (* 115 *)
  | MsgGeminiFailed (file_path : string)       (* 119 *)
  | MsgSaving (output_path : string)           (* 129 *)
  | MsgDirCreated (output_dir : string)        (* 135 *)
  | MsgSaved (output_path : string)            (* 139 *)
  | MsgSaveFailed (e : error)                  (* 141 *)
  | MsgCheckMarker (output_path : string) (marker : text) (* 144 *)
  | MsgRunHeader                               (* 162 *)
  | MsgReviewHeader                            (* 170 *)
  | MsgReviewPath (p : string)                 (* 171 *)
  | MsgReviewMarker (marker : text)            (* 173 *)
  | MsgReviewContent                           (* 174 *)
  | MsgNextStep                                (* 175 *)
  | MsgSkipped.                                (* 177 *)

Inductive node :=
  | File (content : text)
  | Dir.

Record world := World {
  fs : gmap string node;          (* what exists at each path *)
  environ : gmap string string;   (* [os.environ] *)
  stdout : list msg               (* what has been printed, oldest first *)
}.

(** What [load_dotenv] finds at a path: no file, a file it cannot read, or
    the parsed bindings (a name without [=] is bound to [None]). *)
Inductive dotenv_file :=
  | NoFile
  | Unreadable (e : error)
  | Bindings (b : gmap string (option string)).

(** The answer object of the remote model: [text] is present or not, and so
    is [prompt_feedback.block_reason]. *)
Record response := Response {
  resp_text : option text;
  resp_block_reason : option string
}.

Inductive api_outcome :=
  | ApiRaises (e : error)
  | ApiReturns (r : response).

(** Everything decided outside the script. *)
Record oracle := Oracle {
  cwd : string;                                    (* [os.getcwd()] *)
  dotenv_at : string -> dotenv_file;
  configure_fault : string -> option error;        (* [genai.configure] *)
  model_fault : string -> option error;            (* [genai.GenerativeModel] *)
  generate_content : string -> text -> api_outcome;
  read_fault : string -> option error;             (* [open(p, "r")] / [read] *)
  mkdir_fault : string -> option error;            (* [os.mkdir], which
                                                      [os.makedirs] calls *)
  open_fault : string -> option error;             (* [open(p, "w")] *)
  write_fault : string -> text -> option (text * error)
    (* [f.write] fails and leaves this content behind *)
}.

(** ** A state and exception monad *)

Inductive result (A : Type) :=
  | Ok (a : A)
  | Raise (e : exn).
Arguments Ok {A} a.
Arguments Raise {A} e.

Definition M (A : Type) : Type := world -> result A * world.

Definition ret {A} (a : A) : M A := fun w => (Ok a, w).

Definition raise {A} (e : exn) : M A := fun w => (Raise e, w).

Definition bind {A B} (m : M A) (k : A -> M B) : M B :=
  fun w =>
    match m w with
    | (Ok a, w') => k a w'
    | (Raise e, w') => (Raise e, w')
    end.

(** The outcome of a [try] block with an [except Exception as e] clause. *)
Inductive caught (A : Type) :=
  | Fine (a : A)
  | Caught (e : error).
Arguments Fine {A} a.
Arguments Caught {A} e.

(** [try: m except Exception as e: ...], with the outcome made a value. *)
Definition attempt {A} (m : M A) : M (caught A) :=
  fun w =>
    match m w with
    | (Ok a, w') => (Ok (Fine a), w')
    | (Raise (Exception e), w') => (Ok (Caught e), w')
    | (Raise SystemExit, w') => (Raise SystemExit, w')
    end.

Declare Scope pipeline_scope.
Delimit Scope pipeline_scope with pipe.
Notation "x <- m ;; k" := (bind m (fun x => k))
  (at level 100, m at next level, right associativity) : pipeline_scope.
Notation "m ;; k" := (bind m (fun _ => k))
  (at level 100, right associativity) : pipeline_scope.
Local Open Scope pipeline_scope.

Definition set_fs (f : gmap string node) (w : world) : world :=
  World f (environ w) (stdout w).

Definition set_environ (e : gmap string string) (w : world) : world :=
  World (fs w) e (stdout w).

Definition print (m : msg) : M unit :=
  fun w => (Ok tt, World (fs w) (environ w) (stdout w ++ [m])).

(** [os.path.exists] *)
Definition path_exists (p : string) : M bool :=
  fun w => (Ok (match fs w !! p with Some _ => true | None => false end), w).

(** [os.getenv] *)
Definition getenv (name : string) : M (option string) :=
  fun w => (Ok (environ w !! name), w).

(** ** The script *)

Definition MODEL_NAME : string := "gemini-2.5-flash-preview-04-17".
Definition CHUNK_SEPARATOR_MARKER : text := txt "[CHUNK_SEPARATOR]".
Definition KEY_NAME : string := "GOOGLE_API_KEY".

(** A Python value used as a condition: [None] and [""] are false. *)
Definition truthy (v : option string) : bool :=
  match v with
  | Some s => negb (String.eqb s "")
  | None => false
  end.

Definition system_instruction : text :=
  txt "You are an expert in document structure analysis. Read the provided text and identify meaningful breaks where the topic or section changes.".

(** lines 80-93 *)
Definition user_prompt (marker processed_text : text) : text :=
  txt "Read the following text and insert a special marker symbol " ++ marker
  ++ txt " at the end of each meaningful section or unit. Examples of meaningful breaks include the end of a chapter, the end of a major section, the end of a faculty profile, or a significant topic change."
  ++ [NL; NL]
  ++ txt "Constraints:" ++ [NL]
  ++ txt "- DO NOT change the original text content except for inserting the marker symbol `" ++ marker ++ txt "`." ++ [NL]
  ++ txt "- Maintain the Markdown formatting (headers, lists, tables, etc.) as much as possible." ++ [NL]
  ++ txt "- The marker symbol should be inserted on a new line by itself (e.g., \n" ++ marker ++ txt "\n)." ++ [NL]
  ++ txt "- Do not consider the original text length when deciding where to insert markers; base your decision on the meaning and structure of the text."
  ++ [NL; NL]
  ++ txt "Text:" ++ [NL]
  ++ txt "---" ++ [NL]
  ++ processed_text ++ [NL]
  ++ txt "---" ++ [NL; NL]
  ++ txt "Please provide the text with the " ++ marker
  ++ txt " marker inserted at the appropriate breaks.".

(** line 102: the single user part sent to the model *)
Definition request (marker processed_text : text) : text :=
  system_instruction ++ [NL; NL] ++ user_prompt marker processed_text.

Section Script.

Variable orc : oracle.

(** [with open(p, "r", encoding="utf-8") as f: f.read()] *)
Definition read_text (p : string) : M text :=
  fun w =>
    match read_fault orc p with
    | Some e => (Raise (Exception e), w)
    | None =>
        match fs w !! p with
        | Some (File t) => (Ok t, w)
        | Some Dir => (Raise (Exception (IsADirectoryError p)), w)
        | None => (Raise (Exception (FileNotFoundError p)), w)
        end
    end.

(** [os.path.abspath]: the path that [p] stands for, seen from the working
    directory. *)
Definition abspath (p : string) : string :=
  normpath (path_join (cwd orc) p).

(** What [os.makedirs] takes to be there.  The root is there, and so is a
    directory with an entry below it: the map need not list the
    directories above its entries. *)
Definition has_below (f : gmap string node) (a : string) : bool :=
  existsb (fun kv => above a (fst kv)) (map_to_list f).

Definition dir_there (f : gmap string node) (a : string) : bool :=
  all_seps a ||
  match f !! a with
  | Some _ => true
  | None => has_below f a
  end.

(** [os.mkdir(name)]: one directory is made, in a directory that is there.
    [.] and [..] at the end of [name] name a directory that is there
    already. *)
Definition mkdir (name : string) (f : gmap string node)
  : option error * gmap string node :=
  match mkdir_fault orc name with
  | Some e => (Some e, f)
  | None =>
      match f !! name with
      | Some _ => (Some (FileExistsError name), f)
      | None =>
          if String.eqb name "" then (Some (FileNotFoundError name), f)
          else if all_seps name then (Some (FileExistsError name), f)
          else
            let parent := dirname name in
            if negb (String.eqb parent "") && negb (dir_there f parent)
            then (Some (FileNotFoundError name), f)
            else
              match f !! parent with
              | Some (File _) => (Some (NotADirectoryError name), f)
              | _ =>
                  if String.eqb (basename name) "."
                     || String.eqb (basename name) ".."
                  then (Some (FileExistsError name), f)
                  else (None, <[name := Dir]> f)
              end
      end
  end.

(** The body of [os.makedirs(name)] with [exist_ok=False]:
    [[
    head, tail = path.split(name)
    if not tail:
        head, tail = path.split(head)
    if head and tail and not path.exists(head):
        try:
            makedirs(head, exist_ok=exist_ok)
        except FileExistsError:
            pass
        if tail == curdir:
            return
    mkdir(name, mode)
    ]]
    The recursion is on [head], which is shorter than [name]; [fuel] bounds
    it, and the length of [name] is fuel enough (see [makedirs_from_fuel]).
    The first component is the exception raised, if any; the directories
    made before it was raised stay. *)
Fixpoint makedirs_from (fuel : nat) (name : string) (f : gmap string node)
  : option error * gmap string node :=
  let head := dirname name in
  let tail := basename name in
  let '(head, tail) :=
    if String.eqb tail "" then (dirname head, basename head)
    else (head, tail) in
  match fuel with
  | S fuel' =>
      if negb (String.eqb head "") && negb (String.eqb tail "")
         && negb (dir_there f head)
      then
        match makedirs_from fuel' head f with
        | (Some (FileExistsError _), f') | (None, f') =>
            if String.eqb tail "." then (None, f') else mkdir name f'
        | (Some e, f') => (Some e, f')
        end
      else mkdir name f
  | O => mkdir name f
  end.

(** [os.makedirs(d)] *)
Definition makedirs (d : string) : M unit :=
  fun w =>
    match makedirs_from (String.length d) d (fs w) with
    | (Some e, f') => (Raise (Exception e), set_fs f' w)
    | (None, f') => (Ok tt, set_fs f' w)
    end.

(** What stops [open(p, "w")], as far as the path and the map tell: the
    directory that is to hold the file must be there (an empty [dirname] is
    the working directory, which is there), and the last component of [p]
    must name a file.  For a path that ends in a separator the directory
    in question is the one that holds the path without that separator. *)
Definition parent_missing (p : string) (w : world) : option error :=
  let q := if String.eqb (basename p) "" then dirname p else p in
  if String.eqb q "" then Some (FileNotFoundError p)
  else
    match (if String.eqb (dirname q) "" then Some Dir
           else fs w !! dirname q) with
    | Some Dir =>
        if names_directory p then Some (IsADirectoryError p) else None
    | Some (File _) => Some (NotADirectoryError p)
    | None => Some (FileNotFoundError p)
    end.

(** [with open(p, "w", encoding="utf-8") as f: f.write(t)].  Opening fails
    without touching the file; once the file is open it is truncated, and a
    failing [write] leaves what the oracle says. *)
Definition write_text (p : string) (t : text) : M unit :=
  fun w =>
    match open_fault orc p with
    | Some e => (Raise (Exception e), w)
    | None =>
        match fs w !! p with
        | Some Dir => (Raise (Exception (IsADirectoryError p)), w)
        | _ =>
            match parent_missing p w with
            | Some e => (Raise (Exception e), w)
            | None =>
                match write_fault orc p t with
                | Some (partial, e) =>
                    (Raise (Exception e),
                     set_fs (<[p := File partial]> (fs w)) w)
                | None => (Ok tt, set_fs (<[p := File t]> (fs w)) w)
                end
            end
        end
    end.

(** [model = genai.GenerativeModel(model_name)] *)
Definition load_model (model_name : string) : M unit :=
  fun w =>
    match model_fault orc model_name with
    | Some e => (Raise (Exception e), w)
    | None => (Ok tt, w)
    end.

(** [model.generate_content(...)].  An exception raised while the answer is
    inspected (the [text] property of the client raises on a blocked answer)
    is an [ApiRaises] outcome too: it is raised inside the same [try]. *)
Definition call_model (model_name : string) (prompt : text) : M response :=
  fun w =>
    match generate_content orc model_name prompt with
    | ApiRaises e => (Raise (Exception e), w)
    | ApiReturns r => (Ok r, w)
    end.

(** lines 96-116: the [try] block around the remote call and its
    [except] clause; the value is [generated_text]. *)
Definition ask_model (model_name : string) (prompt : text) : M (option text) :=
  called <- attempt (
    load_model model_name ;;
    print (MsgModelLoaded model_name) ;;
    print MsgCalling ;;
    response <- call_model model_name prompt ;;
    match resp_text response with
    | Some t => print MsgApiOk ;; ret (Some t)
    | None =>
        print MsgNoText ;;
        match resp_block_reason response with
        | Some reason => print (MsgBlocked reason)
        | None => ret tt
        end ;;
        ret None
    end) ;;
  match called with
  | Fine generated_text => ret generated_text
  | Caught e => print (MsgApiFailed e) ;; ret None
  end.

(** lines 131-139: the body of the [try] block that saves the result *)
Definition save_output (output_path : string) (generated_text : text) : M unit :=
  let output_dir := dirname output_path in
  (if negb (String.eqb output_dir "") then
     dir_there <- path_exists output_dir ;;
     if negb dir_there then
       makedirs output_dir ;;
       print (MsgDirCreated output_dir)
     else ret tt
   else ret tt) ;;
  write_text output_path generated_text ;;
  print (MsgSaved output_path).

(** lines 44-144.  [api_configured] is the module-level flag read at line 49. *)
Definition process_file_with_gemini (api_configured : bool)
    (file_path output_path model_name : string) (marker : text) : M unit :=
  if negb api_configured then print MsgNotConfigured
  else
    file_there <- path_exists file_path ;;
    if negb file_there then print (MsgNotFound file_path)
    else
      print (MsgReading file_path) ;;
      read <- attempt (raw_text <- read_text file_path ;;
                       print (MsgReadOk file_path) ;;
                       ret raw_text) ;;
      match read with
      | Caught e => print (MsgReadFailed file_path e)
      | Fine raw_text =>
          let processed_text := replace_br raw_text in
          let processed_text := collapse_blank processed_text in
          processed_text <-
            (if is_digipanp file_path then
               print MsgDigipanp ;;
               let processed_text := remove_img processed_text in
               ret (remove_zero processed_text)
             else ret processed_text) ;;
          print (MsgPreprocessed file_path) ;;
          generated_text <- ask_model model_name (request marker processed_text) ;;
          match generated_text with
          | None => print (MsgGeminiFailed file_path)
          | Some generated_text =>
              let generated_text := post_process generated_text in
              print (MsgSaving output_path) ;;
              saved <- attempt (save_output output_path generated_text) ;;
              match saved with
              | Caught e => print (MsgSaveFailed e)
              | Fine _ => print (MsgCheckMarker output_path marker)
              end
          end
      end.

(** [load_dotenv(dotenv_path=p)] with the default [override=False]: a name
    already in [os.environ] keeps its value, a binding without a value sets
    nothing, every other binding is added.  That is the left-biased union
    of [os.environ] with the bindings that have a value. *)
Definition load_dotenv (p : string) : M unit :=
  fun w =>
    match dotenv_at orc p with
    | NoFile => (Ok tt, w)
    | Unreadable e => (Raise (Exception e), w)
    | Bindings b => (Ok tt, set_environ (environ w ∪ omap id b) w)
    end.

(** lines 9-20 *)
Definition resolve_key : M (option string) :=
  loaded <- attempt (
    load_dotenv "AI-E-03/.env" ;;
    first <- getenv KEY_NAME ;;
    (if negb (truthy first) then
       let absolute_path := path_join (path_join (cwd orc) "AI-E-03") ".env" in
       load_dotenv absolute_path
     else ret tt) ;;
    getenv KEY_NAME) ;;
  match loaded with
  | Fine key => ret key
  | Caught e => print (MsgDotenvWarning e) ;; ret None
  end.

(** [genai.configure(api_key=...)] *)
Definition configure (api_key : string) : M unit :=
  fun w =>
    match configure_fault orc api_key with
    | Some e => (Raise (Exception e), w)
    | None => (Ok tt, w)
    end.

Definition rag_path (name : string) : string :=
  path_join (path_join (path_join (cwd orc) "AI-E-03") "RAG") name.

Definition digipanp_file_path : string := rag_path "KIC_digiPanp.md".
Definition digipanp_marked_path : string := rag_path "KIC_digiPanp_marked_gemini.md".

(** The whole script, lines 9-177.  [exit()] raises [SystemExit], which ends
    the run. *)
Definition main : M unit :=
  GOOGLE_API_KEY <- resolve_key ;;
  (if negb (truthy GOOGLE_API_KEY) then print MsgKeyMissing ;; raise SystemExit
   else ret tt) ;;
  configured <- attempt (configure (default ""%string GOOGLE_API_KEY) ;;
                         print MsgConfigured) ;;
  api_configured <-
    match configured with
    | Fine _ => ret true
    | Caught e => print (MsgConfigureFailed e) ;; raise SystemExit
    end ;;
  if truthy GOOGLE_API_KEY && api_configured then
    print MsgRunHeader ;;
    process_file_with_gemini api_configured digipanp_file_path
      digipanp_marked_path MODEL_NAME CHUNK_SEPARATOR_MARKER ;;
    print MsgReviewHeader ;;
    print (MsgReviewPath digipanp_marked_path) ;;
    print (MsgReviewMarker CHUNK_SEPARATOR_MARKER) ;;
    print MsgReviewContent ;;
    print MsgNextStep
  else print MsgSkipped.

End Script.

(** ** Vocabulary of the statements *)

(** [c] is the ASCII letter [lower] in either case. *)
Definition same_letter (lower c : N) : bool :=
  (c =? lower) || (c =? lower - 32).

(** A literal [<br>] or [<br/>] tag, in any mix of cases. *)
Definition is_br_tag (t : text) : bool :=
  match t with
  | [a; b; r; d] =>
      (a =? LT) && same_letter 98 b && same_letter 114 r && (d =? GT)
  | [a; b; r; s; d] =>
      (a =? LT) && same_letter 98 b && same_letter 114 r && (s =? SLASH)
      && (d =? GT)
  | _ => false
  end.

(** No white-space-only line starts at the head of [b]: the white space in
    front of [b] (if any) holds no newline. *)
Fixpoint no_blank_ahead (b : text) : bool :=
  match b with
  | [] => true
  | c :: b' =>
      if is_space c then (if c =? NL then false else no_blank_ahead b')
      else true
  end.

(** An [<img ...>] tag as line 72 understands it: [<img] in any mix of
    cases, one white-space character, then characters other than [>] up to
    the closing [>]. *)
Definition is_img_tag (t : text) : bool :=
  match t with
  | a :: i :: m :: g :: sp :: rest =>
      (a =? LT) && same_letter 105 i && same_letter 109 m && same_letter 103 g
      && is_space sp
      && match rev rest with
         | d :: body => (d =? GT) && forallb not_gt body
         | [] => false
         end
  | _ => false
  end.

(** A line holding only [0] between two blank lines. *)
Definition zero_line : text := [NL; NL; ZERO; NL; NL].

(** The text that the remote call delivers, if any: [None] when building
    the model or the call raises, or when the answer carries no text. *)
Definition answer (orc : oracle) (model_name : string) (prompt : text)
  : option text :=
  match model_fault orc model_name with
  | Some _ => None
  | None =>
      match generate_content orc model_name prompt with
      | ApiRaises _ => None
      | ApiReturns r => resp_text r
      end
  end.

(** The credential that the start of the script settles on. *)
Definition credential (orc : oracle) (w : world) : option string :=
  match fst (resolve_key orc w) with
  | Ok key => key
  | Raise _ => None
  end.

(** What [os.makedirs(d)] can do to the file system [f]: every entry is as
    it was, or is a directory that was not there before (under a path no
    longer than [d]). *)
Definition made (d : string) (f f' : gmap string node) : Prop :=
  forall p,
    f' !! p = f !! p \/
    (f !! p = None /\ f' !! p = Some Dir /\
     (String.length p <= String.length d)%nat).

(** The kinds of failure of one document job. *)
Inductive failure :=
  | ConfigurationError
  | InputNotFound
  | ReadError (e : error)
  | RemoteCallError (e : error)
  | EmptyResponse
  | SafetyBlock (reason : string)
  | WriteError (e : error).

(** The message that reports a failure. *)
Definition diagnostic (file_path : string) (f : failure) : msg :=
  match f with
  | ConfigurationError => MsgNotConfigured
  | InputNotFound => MsgNotFound file_path
  | ReadError e => MsgReadFailed file_path e
  | RemoteCallError e => MsgApiFailed e
  | EmptyResponse => MsgNoText
  | SafetyBlock reason => MsgBlocked reason
  | WriteError e => MsgSaveFailed e
  end.

(** What goes wrong, if anything, when the job is run in world [w]: the
    first of the failure kinds whose condition holds. *)
Definition failure_of (orc : oracle) (api_configured : bool)
    (file_path output_path model_name : string) (marker : text) (w : world)
  : option failure :=
  if negb api_configured then Some ConfigurationError
  else
    match fs w !! file_path with
    | None => Some InputNotFound
    | Some n =>
        match read_fault orc file_path, n with
        | Some e, _ => Some (ReadError e)
        | None, Dir => Some (ReadError (IsADirectoryError file_path))
        | None, File raw_text =>
            match model_fault orc model_name with
            | Some e => Some (RemoteCallError e)
            | None =>
                match generate_content orc model_name
                        (request marker (normalize file_path raw_text)) with
                | ApiRaises e => Some (RemoteCallError e)
                | ApiReturns r =>
                    match resp_text r with
                    | None =>
                        match resp_block_reason r with
                        | Some reason => Some (SafetyBlock reason)
                        | None => Some EmptyResponse
                        end
                    | Some t =>
                        match fst (save_output orc output_path
                                     (post_process t) w) with
                        | Raise (Exception e) => Some (WriteError e)
                        | _ => None
                        end
                    end
                end
            end
        end
    end.

(** The messages with which the driver ends once the job has returned
    (lines 170-175). *)
Definition closing_messages (orc : oracle) : list msg :=
  [ MsgReviewHeader; MsgReviewPath (digipanp_marked_path orc);
    MsgReviewMarker CHUNK_SEPARATOR_MARKER; MsgReviewContent; MsgNextStep ].

(** ** Sample surroundings for concrete runs *)

(** An oracle without faults and without settings files, whose remote
    model always gives [reply]. *)
Definition quiet_oracle (reply : api_outcome) : oracle :=
  {| cwd := "/work";
     dotenv_at := fun _ => NoFile;
     configure_fault := fun _ => None;
     model_fault := fun _ => None;
     generate_content := fun _ _ => reply;
     read_fault := fun _ => None;
     mkdir_fault := fun _ => None;
     open_fault := fun _ => None;
     write_fault := fun _ _ => None |}.

(** A world that holds one document, with the given environment. *)
Definition sample_world (doc : string) (env : gmap string string) : world :=
  {| fs := {[ doc := File (txt "one<br>two") ]}; environ := env; stdout := [] |}.

Definition network_down : api_outcome := ApiRaises (Fault "network").

Definition replies (t : text) : api_outcome :=
  ApiReturns {| resp_text := Some t; resp_block_reason := None |}.

(** ** Vocabulary for the credential lookup *)

Definition relative_env_path : string := "AI-E-03/.env".

Definition absolute_env_path (orc : oracle) : string :=
  path_join (path_join (cwd orc) "AI-E-03") ".env".

(** The value that a settings file gives to [GOOGLE_API_KEY], if any. *)
Definition dotenv_value (f : dotenv_file) : option string :=
  match f with
  | Bindings b => b !! KEY_NAME ≫= id
  | _ => None
  end.

Definition readable (f : dotenv_file) : bool :=
  match f with
  | Unreadable _ => false
  | _ => true
  end.

(** The first source that defines the variable, in the order: exported
    environment, project-relative settings file, settings file addressed by
    absolute path.  The last of them is consulted only when the first two
    give no non-empty value; and when reading a settings file that is
    consulted raises, there is no credential. *)
Definition credential_by_precedence (orc : oracle) (w : world)
  : option string :=
  let first_two :=
    match environ w !! KEY_NAME with
    | Some v => Some v
    | None => dotenv_value (dotenv_at orc relative_env_path)
    end in
  if negb (readable (dotenv_at orc relative_env_path)) then None
  else if truthy first_two then first_two
  else if negb (readable (dotenv_at orc (absolute_env_path orc))) then None
  else
    match first_two with
    | Some v => Some v
    | None => dotenv_value (dotenv_at orc (absolute_env_path orc))
    end.

(** The order that the specification gives: project-relative settings file, settings file
    addressed by absolute path, exported environment. *)
Definition credential_as_claimed (orc : oracle) (w : world) : option string :=
  match dotenv_value (dotenv_at orc relative_env_path) with
  | Some v => Some v
  | None =>
      match dotenv_value (dotenv_at orc (absolute_env_path orc)) with
      | Some v => Some v
      | None => environ w !! KEY_NAME
      end
  end.

(** An oracle without faults whose project-relative settings file is
    [rel]; there is no other settings file. *)
Definition settings_oracle (rel : dotenv_file) : oracle :=
  {| cwd := "/work";
     dotenv_at := fun p => if String.eqb p relative_env_path then rel else NoFile;
     configure_fault := fun _ => None;
     model_fault := fun _ => None;
     generate_content := fun _ _ => network_down;
     read_fault := fun _ => None;
     mkdir_fault := fun _ => None;
     open_fault := fun _ => None;
     write_fault := fun _ _ => None |}.

(** The text holds three newlines in a row somewhere. *)
Fixpoint has_run3 (t : text) : bool :=
  match t with
  | a :: t' => ((a =? NL) && starts_with [NL; NL] t') || has_run3 t'
  | [] => false
  end.

(** Lines 69-73: what normalisation does after the line-break tags have
    been replaced. *)
Definition after_br (file_path : string) (t : text) : text :=
  let t := collapse_blank t in
  if is_digipanp file_path then digipanp_cleanup t else t.

(** ** Vocabulary of the further properties *)

(** A literal [<br>] or [<br/>] tag stands at the head of [t]. *)
Definition br_tag_at_head (t : text) : bool :=
  is_br_tag (take 4 t) || is_br_tag (take 5 t).

(** A literal [<br>] or [<br/>] tag stands somewhere in [t]. *)
Fixpoint has_br_tag (t : text) : bool :=
  br_tag_at_head t ||
  match t with
  | _ :: t' => has_br_tag t'
  | [] => false
  end.

(** [s] is a contiguous part of [t]. *)
Definition segment_of (s t : text) : Prop :=
  exists a b, t = a ++ s ++ b.

(** The same surroundings with another remote model. *)
Definition with_remote (orc : oracle)
    (mf : string -> option error) (g : string -> text -> api_outcome)
  : oracle :=
  {| cwd := cwd orc;
     dotenv_at := dotenv_at orc;
     configure_fault := configure_fault orc;
     model_fault := mf;
     generate_content := g;
     read_fault := read_fault orc;
     mkdir_fault := mkdir_fault orc;
     open_fault := open_fault orc;
     write_fault := write_fault orc |}.




(** * Properties *)

(** ** The model on sample inputs *)

Example replace_br_sample :
  replace_br (txt "a<br>b<BR/>c<Br  />d<br<br>>e")
  = txt "a" ++ [NL] ++ txt "b" ++ [NL] ++ txt "c" ++ [NL] ++ txt "d<br"
    ++ [NL] ++ txt ">e".
Proof. reflexivity. Qed.

Example collapse_blank_sample :
  collapse_blank (txt "a" ++ [NL; NL; NL] ++ txt "b" ++ [NL; 32; NL]
                  ++ txt "c" ++ [NL] ++ txt "  d")
  = txt "a" ++ [NL; NL] ++ txt "b" ++ [NL; NL] ++ txt "c" ++ [NL]
    ++ txt "  d".
Proof. reflexivity. Qed.

Example remove_img_sample :
  remove_img (txt "x<img src=a>y<IMG  b/>z<img>w") = txt "xyz<img>w".
Proof. reflexivity. Qed.

Example normalize_sample :
  normalize "RAG/notes.md"
    (txt "A<br>B" ++ [NL; NL; NL; NL] ++ txt "<img src=p.png>C")
  = txt "A" ++ [NL] ++ txt "B" ++ [NL; NL] ++ txt "<img src=p.png>C".
Proof. reflexivity. Qed.

Example normalize_digipanp_sample :
  normalize "RAG/KIC_digiPanp.md"
    (txt "A<br>B" ++ [NL; NL; NL; NL] ++ txt "<img src=p.png>C"
     ++ [NL; NL; ZERO; NL; NL] ++ txt "D")
  = txt "A" ++ [NL] ++ txt "B" ++ [NL; NL] ++ txt "C" ++ [NL; NL] ++ txt "D".
Proof. reflexivity. Qed.

(** The steps act one after the other, each on the result of the one
    before: for the digiPanp document, deleting an image tag at line 72 can
    bring together newlines that line 69 has already dealt with. *)
Example normalize_steps_in_sequence :
  normalize "RAG/KIC_digiPanp.md"
    (txt "A" ++ [NL] ++ txt "<img src=p.png>" ++ [NL; NL; NL] ++ txt "B")
  = txt "A" ++ [NL; NL; NL] ++ txt "B".
Proof. reflexivity. Qed.

Example dirname_samples :
  dirname "a/b/c.md" = "a/b"%string /\ dirname "/x" = "/"%string /\
  dirname "x" = ""%string /\ dirname "a//b" = "a"%string.
Proof. repeat split. Qed.

Example path_join_sample :
  path_join (path_join "/work" "AI-E-03") ".env" = "/work/AI-E-03/.env"%string.
Proof. reflexivity. Qed.

(** ** The matcher and [re.sub] *)

Lemma greedy_le cls k s n :
  (forall s' m, k s' = Some m -> (m <= length s')%nat) ->
  greedy cls k s = Some n -> (n <= length s)%nat.
Proof.
  intros Hk. revert n. induction s as [|c s IH]; intros n; simpl.
  - apply Hk.
  - destruct (cls c).
    + destruct (greedy cls k s) as [m|] eqn:E.
      * intros [= <-]. specialize (IH m eq_refl). lia.
      * intros H. apply Hk in H. simpl in H. exact H.
    + intros H. apply Hk in H. exact H.
Qed.

Lemma match_here_le p : forall s n,
  match_here p s = Some n -> (n <= length s)%nat.
Proof.
  induction p as [|[cls q] p IH]; intros s n; simpl.
  - intros [= <-]. lia.
  - destruct q.
    + destruct s as [|c s]; [discriminate|]. destruct (cls c); [|discriminate].
      destruct (match_here p s) as [m|] eqn:E; simpl; [|discriminate].
      intros [= <-]. apply IH in E. simpl. lia.
    + destruct s as [|c s]; [apply IH|]. destruct (cls c); [|apply IH].
      destruct (match_here p s) as [m|] eqn:E; [|apply IH].
      intros [= <-]. apply IH in E. simpl. lia.
    + apply greedy_le. exact IH.
    + destruct s as [|c s]; [discriminate|]. destruct (cls c); [|discriminate].
      destruct (greedy cls (match_here p) s) as [m|] eqn:E; simpl; [|discriminate].
      intros [= <-]. apply greedy_le in E; [simpl; lia | exact IH].
Qed.

(** A character that the continuation treats like the end of the text is
    treated so by the loop as well. *)
Lemma greedy_stop cls k c r :
  cls c = false ->
  (forall a, k (a ++ c :: r) = k a) ->
  forall a, greedy cls k (a ++ c :: r) = greedy cls k a.
Proof.
  intros Hc Hk a. induction a as [|x a IH]; simpl.
  - rewrite Hc. apply (Hk []).
  - rewrite IH. pose proof (Hk (x :: a)) as Hx. simpl in Hx. rewrite Hx.
    reflexivity.
Qed.

(** A character that no item of the pattern accepts ends every match
    attempt exactly as the end of the text does. *)
Lemma match_here_stop p c r :
  Forall (fun it => accepts it c = false) p ->
  forall a, match_here p (a ++ c :: r) = match_here p a.
Proof.
  induction p as [|[cls q] p IH]; intros Hp a; [reflexivity|].
  inversion Hp as [|? ? Hc Hp']; subst. simpl in Hc. specialize (IH Hp').
  simpl. destruct q.
  - destruct a as [|x a]; simpl; [rewrite Hc; reflexivity|].
    rewrite IH. reflexivity.
  - destruct a as [|x a]; simpl.
    + rewrite Hc. apply (IH []).
    + rewrite IH. pose proof (IH (x :: a)) as Hx. simpl in Hx. rewrite Hx.
      reflexivity.
  - apply greedy_stop; assumption.
  - destruct a as [|x a]; simpl; [rewrite Hc; reflexivity|].
    rewrite greedy_stop; auto.
Qed.

Lemma sub_from_skip p repl : forall s k,
  sub_from p repl k s = sub_from p repl O (drop k s).
Proof.
  induction s as [|c s IH]; intros [|k]; simpl; try reflexivity.
  apply IH.
Qed.

Lemma re_sub_nil p repl : re_sub p repl [] = [].
Proof. reflexivity. Qed.

Lemma re_sub_copy p repl c s :
  match_here p (c :: s) = None ->
  re_sub p repl (c :: s) = c :: re_sub p repl s.
Proof. unfold re_sub. simpl. intros ->. reflexivity. Qed.

Lemma re_sub_replace p repl s n :
  match_here p s = Some (S n) ->
  re_sub p repl s = repl ++ re_sub p repl (drop (S n) s).
Proof.
  unfold re_sub. destruct s as [|c s]; simpl.
  - intros H. apply match_here_le in H. simpl in H. lia.
  - intros ->. rewrite sub_from_skip. reflexivity.
Qed.

(** Locality: when no match attempt that starts in [a] looks beyond [a],
    the substitution can be done on [a] and on the rest separately. *)
Lemma sub_from_app p repl r : forall a k,
  (k <= length a)%nat ->
  (forall a1 a2, a = a1 ++ a2 -> a2 <> [] ->
                 match_here p (a2 ++ r) = match_here p a2) ->
  sub_from p repl k (a ++ r) = sub_from p repl k a ++ sub_from p repl O r.
Proof.
  induction a as [|c a IH]; intros k Hk Hloc.
  - simpl in Hk. assert (k = O) by lia. subst. reflexivity.
  - assert (Hloc' : forall a1 a2, a = a1 ++ a2 -> a2 <> [] ->
                      match_here p (a2 ++ r) = match_here p a2).
    { intros a1 a2 -> Hne. apply (Hloc (c :: a1)); auto. }
    destruct k as [|k]; simpl.
    + change (c :: a ++ r) with ((c :: a) ++ r).
      rewrite (Hloc [] (c :: a)) by (auto; discriminate).
      destruct (match_here p (c :: a)) as [[|n]|] eqn:E.
      * rewrite IH by (auto; lia). reflexivity.
      * apply match_here_le in E. simpl in E.
        rewrite IH by (auto; lia). rewrite app_assoc. reflexivity.
      * rewrite IH by (auto; lia). reflexivity.
    + simpl in Hk. apply IH; auto. lia.
Qed.

Lemma re_sub_app p repl a r :
  (forall a1 a2, a = a1 ++ a2 -> a2 <> [] ->
                 match_here p (a2 ++ r) = match_here p a2) ->
  re_sub p repl (a ++ r) = re_sub p repl a ++ re_sub p repl r.
Proof. intros H. apply sub_from_app; [lia | exact H]. Qed.

(** For a pattern that starts with a single literal item and whose other
    items all reject [c], the text can be cut in front of any [c]. *)
Lemma re_sub_cut p0 cls p repl c a r :
  p0 = Item cls One :: p ->
  Forall (fun it => accepts it c = false) p ->
  re_sub p0 repl (a ++ c :: r) = re_sub p0 repl a ++ re_sub p0 repl (c :: r).
Proof.
  intros -> Hp. apply re_sub_app. intros a1 [|x a2] _ Hne; [congruence|].
  simpl. rewrite match_here_stop by exact Hp. reflexivity.
Qed.

Lemma match_here_nonempty p s :
  In p [br_pattern; blank_pattern; img_pattern; zero_pattern] ->
  match_here p s <> Some O.
Proof.
  intros Hp. assert (exists cls p', p = Item cls One :: p') as (cls & p' & ->).
  { simpl in Hp. destruct Hp as [<-|[<-|[<-|[<-|[]]]]]; eexists _, _; reflexivity. }
  simpl. destruct s as [|c s]; [discriminate|].
  destruct (cls c); [|discriminate].
  destruct (match_here p' s); discriminate.
Qed.

(** ** Line 68: line-break tags *)

Lemma same_letter_cases l c : same_letter l c = true -> c = l \/ c = l - 32.
Proof.
  unfold same_letter. intros H. apply orb_prop in H as [H|H];
    apply N.eqb_eq in H; auto.
Qed.

Lemma is_br_tag_cases t :
  is_br_tag t = true ->
  exists b r, (b = 98 \/ b = 66) /\ (r = 114 \/ r = 82) /\
              (t = [LT; b; r; GT] \/ t = [LT; b; r; SLASH; GT]).
Proof.
  intros H.
  destruct t as [|a [|b [|r [|s [|d [|e t]]]]]]; try discriminate; simpl in H;
    rewrite !andb_true_iff, !N.eqb_eq in H.
  - destruct H as (((-> & Hb) & Hr) & ->).
    apply same_letter_cases in Hb, Hr. exists b, r. auto.
  - destruct H as ((((-> & Hb) & Hr) & ->) & ->).
    apply same_letter_cases in Hb, Hr. exists b, r. auto.
Qed.

Lemma br_pattern_cut a r :
  replace_br (a ++ LT :: r) = replace_br a ++ replace_br (LT :: r).
Proof.
  unfold replace_br. eapply re_sub_cut; [reflexivity|].
  repeat constructor.
Qed.

Lemma replace_br_tag tag post :
  is_br_tag tag = true -> replace_br (tag ++ post) = NL :: replace_br post.
Proof.
  intros H. apply is_br_tag_cases in H as (b & r & Hb & Hr & Ht).
  destruct Hb as [-> | ->], Hr as [-> | ->], Ht as [-> | ->]; reflexivity.
Qed.

Lemma normalize_after_br file_path raw_text :
  normalize file_path raw_text = after_br file_path (replace_br raw_text).
Proof. reflexivity. Qed.

(** C5.  Normalisation replaces every occurrence of a literal [<br>] or
    [<br/>] tag, in any mix of upper and lower case, by a single newline:
    wherever such a tag stands in the input text, line 68 yields the result
    for the text before it, one newline, and the result for the text after
    it, and the normalised text is what lines 69-73 make of that. *)
Theorem replace_br_every_tag (file_path : string) (pre tag post : text) :
  is_br_tag tag = true ->
  replace_br (pre ++ tag ++ post) = replace_br pre ++ [NL] ++ replace_br post /\
  normalize file_path (pre ++ tag ++ post)
  = after_br file_path (replace_br pre ++ [NL] ++ replace_br post).
Proof.
  intros H. rewrite normalize_after_br.
  enough (replace_br (pre ++ tag ++ post)
          = replace_br pre ++ [NL] ++ replace_br post) as -> by auto.
  pose proof (replace_br_tag tag post H) as Ht.
  apply is_br_tag_cases in H as (b & r & _ & _ & [-> | ->]);
    simpl app in *; rewrite br_pattern_cut, Ht; reflexivity.
Qed.

Lemma replace_br_every_tag_witness :
  is_br_tag (txt "<BR/>") = true /\
  replace_br (txt "a" ++ txt "<BR/>" ++ txt "b")
  = replace_br (txt "a") ++ [NL] ++ replace_br (txt "b") /\
  normalize "RAG/notes.md" (txt "a" ++ txt "<BR/>" ++ txt "b")
  = after_br "RAG/notes.md" (replace_br (txt "a") ++ [NL] ++ replace_br (txt "b")).
Proof.
  split; [reflexivity|].
  apply (replace_br_every_tag "RAG/notes.md" (txt "a") (txt "<BR/>") (txt "b")).
  reflexivity.
Defined.

(** ** Line 69: runs of blank lines *)

Lemma match_here_one cls p c s :
  match_here (Item cls One :: p) (c :: s)
  = if cls c then S <$> match_here p s else None.
Proof. reflexivity. Qed.

Lemma lit_false c x : (x =? c) = false -> lit c x = false.
Proof. unfold lit. rewrite N.eqb_sym. auto. Qed.

Lemma forallb_false_split {A} (f : A -> bool) l :
  forallb f l = false -> exists u c v, l = u ++ c :: v /\ f c = false.
Proof.
  induction l as [|x l IH]; simpl; [discriminate|].
  destruct (f x) eqn:E; simpl.
  - intros H. destruct (IH H) as (u & c & v & -> & Hc).
    exists (x :: u), c, v. auto.
  - intros _. exists [], x, l. auto.
Qed.

Lemma no_blank_ahead_spaces u x :
  forallb is_space u = true -> no_blank_ahead (u ++ NL :: x) = false.
Proof.
  induction u as [|c u IH]; simpl; [reflexivity|].
  intros H. apply andb_prop in H as [-> H].
  destruct (c =? NL); auto.
Qed.

Lemma blank_pattern_stop c r a :
  is_space c = false ->
  match_here blank_pattern (a ++ c :: r) = match_here blank_pattern a.
Proof.
  intros Hc. apply match_here_stop.
  assert (lit NL c = false).
  { unfold lit. apply N.eqb_neq. intros <-. discriminate. }
  repeat constructor; assumption.
Qed.

(** Text whose trailing white space holds no newline can be cut off: no
    match that starts in it reaches its end. *)
Lemma collapse_blank_cut_after a r :
  no_blank_ahead (rev a) = true ->
  collapse_blank (a ++ r) = collapse_blank a ++ collapse_blank r.
Proof.
  intros Ha. apply re_sub_app. intros a1 [|x a2] E Hne; [congruence|].
  subst a. clear Hne.
  destruct (forallb is_space a2) eqn:Hsp.
  - destruct (x =? NL) eqn:Hx.
    + apply N.eqb_eq in Hx. subst x.
      rewrite rev_app_distr in Ha. simpl in Ha. rewrite <- app_assoc in Ha.
      simpl in Ha. rewrite no_blank_ahead_spaces in Ha; [discriminate|].
      rewrite forallb_forall in *. intros y Hy. apply Hsp.
      apply in_rev. exact Hy.
    + unfold blank_pattern. simpl app. rewrite !match_here_one.
      rewrite lit_false by exact Hx. reflexivity.
  - apply forallb_false_split in Hsp as (u & c & v & -> & Hc).
    replace ((x :: u ++ c :: v) ++ r) with ((x :: u) ++ c :: (v ++ r))
      by (simpl; rewrite <- app_assoc; reflexivity).
    change (x :: u ++ c :: v) with ((x :: u) ++ c :: v).
    rewrite !blank_pattern_stop by exact Hc. reflexivity.
Qed.

Lemma greedy_cons cls k c s :
  greedy cls k (c :: s)
  = if cls c then
      match greedy cls k s with Some n => Some (S n) | None => k (c :: s) end
    else k (c :: s).
Proof. reflexivity. Qed.

Lemma space_not_nl c : is_space c = false -> (c =? NL) = false.
Proof. intros H. apply N.eqb_neq. intros ->. discriminate. Qed.

Lemma greedy_blank_none b :
  no_blank_ahead b = true ->
  greedy is_space (match_here [Item (lit NL) One]) b = None.
Proof.
  induction b as [|c b IH]; intros H; [reflexivity|].
  cbn [no_blank_ahead] in H. rewrite greedy_cons, match_here_one.
  destruct (is_space c) eqn:Hs.
  - destruct (c =? NL) eqn:Hc; [discriminate|].
    rewrite IH by exact H. rewrite lit_false by exact Hc. reflexivity.
  - rewrite lit_false by (apply space_not_nl; exact Hs). reflexivity.
Qed.

Lemma greedy_blank_block m b :
  forallb is_space m = true -> no_blank_ahead b = true ->
  greedy is_space (match_here [Item (lit NL) One]) (m ++ NL :: b)
  = Some (S (length m)).
Proof.
  intros Hm Hb. induction m as [|c m IH].
  - simpl app. rewrite greedy_cons, greedy_blank_none by exact Hb. reflexivity.
  - simpl in Hm. apply andb_prop in Hm as [Hc Hm]. simpl app.
    rewrite greedy_cons, Hc, IH by exact Hm. reflexivity.
Qed.

(** A block of white space that starts and ends with a newline and is not
    followed by another white-space-only line is one match. *)
Lemma collapse_blank_block m b :
  forallb is_space m = true -> no_blank_ahead b = true ->
  collapse_blank (NL :: m ++ NL :: b) = [NL; NL] ++ collapse_blank b.
Proof.
  intros Hm Hb. unfold collapse_blank.
  rewrite (re_sub_replace _ _ _ (S (length m))).
  - f_equal. simpl. change (NL :: b) with ([NL] ++ b). rewrite app_assoc.
    rewrite drop_app_length'; [reflexivity|]. rewrite length_app. simpl. lia.
  - unfold blank_pattern. rewrite match_here_one.
    change (match_here [Item is_space Star; Item (lit NL) One])
      with (greedy is_space (match_here [Item (lit NL) One])).
    rewrite greedy_blank_block by assumption. reflexivity.
Qed.

Lemma split_blank_ahead post :
  exists w b, post = w ++ b /\ forallb is_space w = true /\
              (w = [] \/ last w = Some NL) /\ no_blank_ahead b = true.
Proof.
  induction post as [|c post (w & b & -> & Hw & Hl & Hb)].
  - exists [], []. auto.
  - destruct (is_space c) eqn:Hc.
    + destruct w as [|x w].
      * destruct (c =? NL) eqn:Hn.
        -- apply N.eqb_eq in Hn. subst c. exists [NL], b. auto.
        -- exists [], (c :: b). simpl. rewrite Hc, Hn. auto.
      * exists (c :: x :: w), b. simpl. simpl in Hw. rewrite Hc, Hw.
        destruct Hl as [Hl|Hl]; [discriminate|]. auto.
    + exists [], (c :: w ++ b). simpl. rewrite Hc. auto.
Qed.

Lemma split_blank_behind pre :
  exists a w, pre = a ++ w /\ forallb is_space w = true /\
              (w = [] \/ head w = Some NL) /\ no_blank_ahead (rev a) = true.
Proof.
  destruct (split_blank_ahead (rev pre)) as (w & b & E & Hw & Hl & Hb).
  exists (rev b), (rev w). rewrite rev_involutive. repeat split; auto.
  - rewrite <- rev_app_distr, <- E, rev_involutive. reflexivity.
  - rewrite forallb_forall in *. intros x Hx. apply Hw, in_rev. exact Hx.
  - destruct Hl as [-> | Hl]; [auto|]. right.
    destruct w as [|x w _] using rev_ind; [discriminate|].
    rewrite last_snoc in Hl. rewrite rev_app_distr. simpl. exact Hl.
Qed.

Lemma blank_block_shape (B : text) :
  forallb is_space B = true -> head B = Some NL -> last B = Some NL ->
  (2 <= length B)%nat ->
  exists m, B = NL :: m ++ [NL] /\ forallb is_space m = true.
Proof.
  intros Hs Hh Hl Hlen. destruct B as [|x B]; [discriminate|].
  simpl in Hh. injection Hh as ->.
  destruct B as [|y B _] using rev_ind; [simpl in Hlen; lia|].
  change (NL :: B ++ [y]) with ((NL :: B) ++ [y]) in Hl.
  rewrite last_snoc in Hl. injection Hl as ->.
  exists B. split; [reflexivity|].
  change (NL :: B ++ [NL]) with ([NL] ++ B ++ [NL]) in Hs.
  rewrite !forallb_app in Hs.
  apply andb_prop in Hs as [_ Hs]. apply andb_prop in Hs as [Hs _]. exact Hs.
Qed.

(** Line 69 collapses every run of three or more newlines in the text it
    receives to exactly two newlines.  Wherever such a run stands, the
    result is the result for the text before it, two newlines, and the
    result for the text after it; the white-space-only lines that touch the
    run ([w1] before it, [w2] after it) are part of the same blank stretch
    and go with it, and they are all of them: no white-space-only line is
    left next to the stretch on either side. *)
Lemma collapse_blank_run_step (pre post : text) (k : nat) :
  (3 <= k)%nat ->
  exists a w1 w2 b,
    pre = a ++ w1 /\ post = w2 ++ b /\
    forallb is_space w1 = true /\ (w1 = [] \/ head w1 = Some NL) /\
    forallb is_space w2 = true /\ (w2 = [] \/ last w2 = Some NL) /\
    no_blank_ahead (rev a) = true /\ no_blank_ahead b = true /\
    collapse_blank (pre ++ replicate k NL ++ post)
    = collapse_blank a ++ [NL; NL] ++ collapse_blank b.
Proof.
  intros Hk.
  destruct (split_blank_behind pre) as (a & w1 & -> & Hw1 & Hh & Ha).
  destruct (split_blank_ahead post) as (w2 & b & -> & Hw2 & Hl & Hb).
  exists a, w1, w2, b. repeat split; auto.
  destruct (blank_block_shape (w1 ++ replicate k NL ++ w2)) as (m & E & Hm).
  - rewrite !forallb_app, Hw1, Hw2. simpl. rewrite andb_true_r.
    clear. induction k; simpl; auto.
  - destruct Hh as [-> | Hh].
    + destruct k; [lia|]. reflexivity.
    + destruct w1; [discriminate|]. exact Hh.
  - rewrite app_assoc. destruct Hl as [-> | Hl].
    + rewrite app_nil_r. destruct k; [lia|].
      rewrite replicate_S_end, app_assoc. apply last_snoc.
    + destruct w2 as [|y w2 _] using rev_ind; [discriminate|].
      rewrite app_assoc. rewrite last_snoc in *. exact Hl.
  - rewrite !length_app, length_replicate. lia.
  - replace ((a ++ w1) ++ replicate k NL ++ w2 ++ b)
      with (a ++ (w1 ++ replicate k NL ++ w2) ++ b)
      by (rewrite <- !app_assoc; reflexivity).
    rewrite E. rewrite collapse_blank_cut_after by exact Ha.
    simpl. rewrite <- app_assoc. simpl.
    rewrite collapse_blank_block by assumption. reflexivity.
Qed.

(** C4, as amended.  Every run of three or more newlines that is in the
    text once the line-break tags have been replaced (line 68) is collapsed
    by line 69 to exactly two newlines, together with the white-space-only
    lines that touch it: [w1] before the run and [w2] after it are white
    space that begins, respectively ends, with a newline, and they are
    maximal (the white space at the end of [a] and at the head of [b] holds
    no newline).  For a path outside the special category the text so
    obtained is the normalised text. *)
Theorem normalize_collapses_runs (file_path : string) (raw_text pre post : text)
    (k : nat) :
  (3 <= k)%nat ->
  replace_br raw_text = pre ++ replicate k NL ++ post ->
  exists a w1 w2 b,
    pre = a ++ w1 /\ post = w2 ++ b /\
    forallb is_space w1 = true /\ (w1 = [] \/ head w1 = Some NL) /\
    forallb is_space w2 = true /\ (w2 = [] \/ last w2 = Some NL) /\
    no_blank_ahead (rev a) = true /\ no_blank_ahead b = true /\
    collapse_blank (replace_br raw_text)
    = collapse_blank a ++ [NL; NL] ++ collapse_blank b /\
    (is_digipanp file_path = false ->
     normalize file_path raw_text
     = collapse_blank a ++ [NL; NL] ++ collapse_blank b).
Proof.
  intros Hk E.
  destruct (collapse_blank_run_step pre post k Hk)
    as (a & w1 & w2 & b & H1 & H2 & H3 & H4 & H5 & H6 & H7 & H8 & H9).
  exists a, w1, w2, b. rewrite E. repeat split; auto.
  intros Hd. unfold normalize. rewrite Hd, E. exact H9.
Qed.

Lemma normalize_collapses_runs_witness :
  (3 <= 3)%nat /\
  replace_br (txt "a " ++ [NL; NL; NL] ++ [NL; 32] ++ txt "b")
  = txt "a " ++ replicate 3 NL ++ [NL; 32] ++ txt "b" /\
  exists a w1 w2 b,
    txt "a " = a ++ w1 /\ [NL; 32] ++ txt "b" = w2 ++ b /\
    forallb is_space w1 = true /\ (w1 = [] \/ head w1 = Some NL) /\
    forallb is_space w2 = true /\ (w2 = [] \/ last w2 = Some NL) /\
    no_blank_ahead (rev a) = true /\ no_blank_ahead b = true /\
    collapse_blank (replace_br (txt "a " ++ [NL; NL; NL] ++ [NL; 32] ++ txt "b"))
    = collapse_blank a ++ [NL; NL] ++ collapse_blank b /\
    (is_digipanp "RAG/notes.md" = false ->
     normalize "RAG/notes.md" (txt "a " ++ [NL; NL; NL] ++ [NL; 32] ++ txt "b")
     = collapse_blank a ++ [NL; NL] ++ collapse_blank b).
Proof.
  split; [lia|]. split; [reflexivity|].
  apply (normalize_collapses_runs "RAG/notes.md"
           (txt "a " ++ [NL; NL; NL] ++ [NL; 32] ++ txt "b")
           (txt "a ") ([NL; 32] ++ txt "b") 3);
    [lia | reflexivity].
Defined.

(** C4, as stated, fails: a run of three newlines inside a [<br ...>] tag
    is replaced together with the tag by one newline at line 68, so the
    normalised text holds one newline in its place, not two. *)
Lemma run_inside_br_tag_not_collapsed :
  normalize "RAG/notes.md" (txt "a<br" ++ [NL; NL; NL] ++ txt ">b")
  = txt "a" ++ [NL] ++ txt "b" /\
  ~ exists x y,
      normalize "RAG/notes.md" (txt "a<br" ++ [NL; NL; NL] ++ txt ">b")
      = x ++ [NL; NL] ++ y.
Proof.
  split; [reflexivity|]. intros (x & y & H).
  change (normalize "RAG/notes.md" (txt "a<br" ++ [NL; NL; NL] ++ txt ">b"))
    with [97; NL; 98] in H.
  destruct x as [|x0 [|x1 [|x2 x]]]; simpl in H; try discriminate.
  destruct x; discriminate.
Qed.

(** The same holds of every tag of that kind: white space between [<br]
    and the closing [>] (or [/>]), newlines included, goes with the tag,
    and the whole is replaced by one newline. *)
Lemma greedy_space_to_close ws sl post :
  forallb is_space ws = true -> sl = [] \/ sl = [SLASH] ->
  greedy is_space (match_here [Item (lit SLASH) Opt; Item (lit GT) One])
    (ws ++ sl ++ GT :: post)
  = Some (length ws + (length sl + 1))%nat.
Proof.
  intros Hws Hsl. induction ws as [|c ws IH].
  - destruct Hsl as [-> | ->]; reflexivity.
  - simpl in Hws. apply andb_prop in Hws as [Hc Hws]. simpl app.
    rewrite greedy_cons, Hc, IH by exact Hws. reflexivity.
Qed.

Lemma replace_br_spaced_tag (pre ws sl post : text) (b r : N) :
  same_letter 98 b = true -> same_letter 114 r = true ->
  forallb is_space ws = true -> sl = [] \/ sl = [SLASH] ->
  replace_br (pre ++ [LT; b; r] ++ ws ++ sl ++ [GT] ++ post)
  = replace_br pre ++ [NL] ++ replace_br post.
Proof.
  intros Hb Hr Hws Hsl. simpl app. rewrite br_pattern_cut. f_equal.
  unfold replace_br.
  rewrite (re_sub_replace _ _ _ (2 + (length ws + (length sl + 1)))).
  - f_equal. f_equal. simpl.
    replace (ws ++ sl ++ GT :: post) with ((ws ++ sl ++ [GT]) ++ post)
      by (rewrite <- !app_assoc; reflexivity).
    apply drop_app_length'. rewrite !length_app. simpl. lia.
  - unfold br_pattern. rewrite !match_here_one.
    change (lit LT LT) with true.
    change (lit_nocase 98 66 b) with (same_letter 98 b).
    change (lit_nocase 114 82 r) with (same_letter 114 r).
    rewrite Hb, Hr.
    change (match_here [Item is_space Star; Item (lit SLASH) Opt; Item (lit GT) One])
      with (greedy is_space (match_here [Item (lit SLASH) Opt; Item (lit GT) One])).
    rewrite greedy_space_to_close by assumption. reflexivity.
Qed.

(** *** No run of three newlines is left by line 69 *)

Lemma lit_refl c : lit c c = true.
Proof. apply N.eqb_refl. Qed.

Lemma greedy_blank_none_inv s :
  greedy is_space (match_here [Item (lit NL) One]) s = None ->
  no_blank_ahead s = true.
Proof.
  induction s as [|c s IH]; [reflexivity|].
  rewrite greedy_cons, match_here_one. cbn [no_blank_ahead].
  destruct (is_space c); [|reflexivity].
  destruct (greedy is_space (match_here [Item (lit NL) One]) s);
    [discriminate|].
  destruct (c =? NL) eqn:Hc.
  - apply N.eqb_eq in Hc. subst c. rewrite lit_refl. discriminate.
  - intros _. apply IH. reflexivity.
Qed.

Lemma greedy_blank_some s n :
  greedy is_space (match_here [Item (lit NL) One]) s = Some n ->
  exists m b, s = m ++ NL :: b /\ forallb is_space m = true /\
              no_blank_ahead b = true /\ n = S (length m).
Proof.
  revert n. induction s as [|c s IH]; intros n; [discriminate|].
  rewrite greedy_cons, match_here_one.
  destruct (is_space c) eqn:Hs.
  - destruct (greedy is_space (match_here [Item (lit NL) One]) s) as [k|] eqn:E.
    + intros [= <-]. destruct (IH k eq_refl) as (m & b & -> & Hm & Hb & ->).
      exists (c :: m), b. simpl. rewrite Hs, Hm. auto.
    + destruct (c =? NL) eqn:Hc.
      * apply N.eqb_eq in Hc. subst c. rewrite lit_refl. intros [= <-].
        exists [], s. repeat split; auto. apply greedy_blank_none_inv, E.
      * rewrite lit_false by exact Hc. discriminate.
  - rewrite lit_false by (apply space_not_nl, Hs). discriminate.
Qed.

Lemma match_blank_cons c t :
  match_here blank_pattern (c :: t)
  = if lit NL c
    then S <$> greedy is_space (match_here [Item (lit NL) One]) t
    else None.
Proof. reflexivity. Qed.

Lemma match_blank_some t n :
  match_here blank_pattern t = Some n ->
  exists m b, t = NL :: m ++ NL :: b /\ forallb is_space m = true /\
              no_blank_ahead b = true.
Proof.
  destruct t as [|c t]; [discriminate|]. rewrite match_blank_cons.
  destruct (c =? NL) eqn:Hc.
  - apply N.eqb_eq in Hc. subst c. rewrite lit_refl.
    destruct (greedy is_space (match_here [Item (lit NL) One]) t) as [k|] eqn:E;
      [|discriminate].
    intros _. apply greedy_blank_some in E as (m & b & -> & Hm & Hb & _).
    exists m, b. auto.
  - rewrite lit_false by exact Hc. discriminate.
Qed.

Lemma collapse_blank_head b :
  no_blank_ahead b = true -> starts_with [NL] (collapse_blank b) = false.
Proof.
  destruct b as [|c b]; [reflexivity|]. cbn [no_blank_ahead].
  intros H. assert (Hc : (c =? NL) = false).
  { destruct (is_space c) eqn:Hs; [|apply space_not_nl, Hs].
    destruct (c =? NL); [discriminate|reflexivity]. }
  unfold collapse_blank. rewrite re_sub_copy.
  - cbn [starts_with]. rewrite N.eqb_sym, Hc. reflexivity.
  - unfold blank_pattern. rewrite match_here_one, lit_false by exact Hc.
    reflexivity.
Qed.

Lemma starts_with_two x :
  starts_with [NL] x = false -> starts_with [NL; NL] x = false.
Proof.
  destruct x as [|c x]; [reflexivity|]. cbn [starts_with].
  rewrite andb_true_r. intros ->. reflexivity.
Qed.

Lemma has_run3_cons a t :
  has_run3 (a :: t) = ((a =? NL) && starts_with [NL; NL] t) || has_run3 t.
Proof. reflexivity. Qed.

(** After line 69 the text holds no run of three newlines. *)
Lemma collapse_blank_no_run3 t : has_run3 (collapse_blank t) = false.
Proof.
  remember (length t) as n eqn:Hn. revert t Hn.
  induction n as [n IH] using lt_wf_ind. intros [|c s] Hn; [reflexivity|].
  destruct (match_here blank_pattern (c :: s)) as [k|] eqn:E.
  - destruct (match_blank_some _ _ E) as (m & b & Et & Hm & Hb).
    rewrite Et, collapse_blank_block by assumption.
    pose proof (collapse_blank_head b Hb) as Hh.
    assert (Hrec : has_run3 (collapse_blank b) = false).
    { apply (IH (length b)); [|reflexivity]. subst n. rewrite Et. simpl.
      rewrite length_app. simpl. lia. }
    simpl app. rewrite (has_run3_cons NL), (has_run3_cons NL), Hrec.
    rewrite (starts_with_two _ Hh).
    destruct (collapse_blank b) as [|x y]; [reflexivity|].
    cbn [starts_with] in *. rewrite andb_true_r in Hh. rewrite Hh.
    rewrite !andb_false_r. reflexivity.
  - unfold collapse_blank. rewrite re_sub_copy by exact E.
    fold (collapse_blank s). rewrite has_run3_cons.
    rewrite (IH (length s)); [| subst n; simpl; lia | reflexivity].
    rewrite orb_false_r. destruct (c =? NL) eqn:Hc; [|reflexivity].
    apply N.eqb_eq in Hc. subst c. simpl andb.
    apply starts_with_two, collapse_blank_head, greedy_blank_none_inv.
    rewrite match_blank_cons, lit_refl in E.
    destruct (greedy is_space (match_here [Item (lit NL) One]) s);
      [discriminate|reflexivity].
Qed.

(** For a path outside the special category the normalised text holds no
    run of three newlines. *)
Lemma normalize_no_run3 file_path raw_text :
  is_digipanp file_path = false ->
  has_run3 (normalize file_path raw_text) = false.
Proof.
  intros H. unfold normalize. rewrite H. apply collapse_blank_no_run3.
Qed.

(** ** Lines 70-73: clean-up for the digiPanp document *)

(** Characters that cannot start a match are copied. *)
Lemma re_sub_skip cls p repl pre s :
  forallb (fun c => negb (cls c)) pre = true ->
  re_sub (Item cls One :: p) repl (pre ++ s)
  = pre ++ re_sub (Item cls One :: p) repl s.
Proof.
  induction pre as [|c pre IH]; intros H; [reflexivity|].
  simpl in H. apply andb_prop in H as [Hc H]. simpl app.
  rewrite re_sub_copy.
  - rewrite IH by exact H. reflexivity.
  - rewrite match_here_one. destruct (cls c); [discriminate|reflexivity].
Qed.

Lemma greedy_to_gt body post :
  forallb not_gt body = true ->
  greedy not_gt (match_here [Item (lit GT) One]) (body ++ GT :: post)
  = Some (S (length body)).
Proof.
  intros H. induction body as [|c body IH].
  - reflexivity.
  - simpl in H. apply andb_prop in H as [Hc H]. simpl app.
    rewrite greedy_cons, Hc, IH by exact H. reflexivity.
Qed.

Lemma greedy_space_to_gt body post :
  forallb not_gt body = true ->
  greedy is_space (greedy not_gt (match_here [Item (lit GT) One]))
    (body ++ GT :: post)
  = Some (S (length body)).
Proof.
  intros H. induction body as [|c body IH].
  - reflexivity.
  - pose proof H as H'. simpl in H'. apply andb_prop in H' as [Hc H'].
    simpl app. rewrite greedy_cons. destruct (is_space c).
    + rewrite IH by exact H'. reflexivity.
    + change (c :: body ++ GT :: post) with ((c :: body) ++ GT :: post).
      apply greedy_to_gt. exact H.
Qed.

Lemma is_img_tag_cases t :
  is_img_tag t = true ->
  exists i m g sp body,
    t = [LT; i; m; g; sp] ++ body ++ [GT] /\
    lit_nocase_i i = true /\ lit_nocase 109 77 m = true /\
    lit_nocase 103 71 g = true /\ is_space sp = true /\
    forallb not_gt body = true.
Proof.
  intros H. destruct t as [|a [|i [|m [|g [|sp rest]]]]]; try discriminate.
  simpl in H. destruct (rev rest) as [|d body] eqn:E.
  - rewrite andb_false_r in H. discriminate.
  - rewrite !andb_true_iff, !N.eqb_eq in H.
    destruct H as (((((-> & Hi) & Hm) & Hg) & Hsp) & -> & Hb).
    exists i, m, g, sp, (rev body).
    assert (rest = rev body ++ [GT]) as ->.
    { rewrite <- (rev_involutive rest), E. reflexivity. }
    repeat split.
    + apply same_letter_cases in Hi. unfold lit_nocase_i.
      destruct Hi as [-> | ->]; reflexivity.
    + exact Hm.
    + exact Hg.
    + exact Hsp.
    + rewrite forallb_forall in *. intros x Hx. apply Hb, in_rev. exact Hx.
Qed.

(** Line 72 deletes an [<img ...>] tag that the scan reaches. *)
Lemma remove_img_tag tag post :
  is_img_tag tag = true -> remove_img (tag ++ post) = remove_img post.
Proof.
  intros H. apply is_img_tag_cases in H
    as (i & m & g & sp & body & -> & Hi & Hm & Hg & Hsp & Hb).
  unfold remove_img. rewrite (re_sub_replace _ _ _ (5 + length body)).
  - simpl app at 1. f_equal.
    rewrite drop_app_length'; [reflexivity|].
    rewrite !length_app. simpl. lia.
  - unfold img_pattern. rewrite <- !app_assoc. simpl app.
    rewrite !match_here_one. unfold lit at 1. rewrite N.eqb_refl, Hi, Hm, Hg.
    cbn [match_here]. rewrite Hsp.
    rewrite greedy_space_to_gt by exact Hb. reflexivity.
Qed.

(** An [<img ...>] tag with no [<] before it disappears, and nothing else
    before it changes. *)
Lemma remove_img_first_tag pre tag post :
  forallb (fun c => negb (lit LT c)) pre = true ->
  is_img_tag tag = true ->
  remove_img (pre ++ tag ++ post) = pre ++ remove_img post.
Proof.
  intros Hpre Htag. unfold remove_img, img_pattern.
  rewrite re_sub_skip by exact Hpre. f_equal. apply remove_img_tag, Htag.
Qed.

(** A [0] line between blank lines, with no newline before it in the text,
    is removed together with one of the two blank lines. *)
Lemma remove_zero_first_line pre post :
  forallb (fun c => negb (lit NL c)) pre = true ->
  remove_zero (pre ++ zero_line ++ post) = pre ++ [NL; NL] ++ remove_zero post.
Proof.
  intros Hpre. unfold remove_zero, zero_pattern.
  rewrite re_sub_skip by exact Hpre. reflexivity.
Qed.

(** C3.  For the digiPanp path, of two [0] lines that are each surrounded
    by blank lines and share the blank line between them, only the first
    is removed: the second [0] line is still in the normalised text. *)
Theorem digipanp_second_zero_line_kept :
  is_digipanp "AI-E-03/RAG/KIC_digiPanp.md" = true /\
  normalize "AI-E-03/RAG/KIC_digiPanp.md"
    (txt "a" ++ zero_line ++ [ZERO; NL; NL] ++ txt "b")
  = txt "a" ++ zero_line ++ txt "b".
Proof. split; reflexivity. Qed.

(** ** Lines 123-126: the code fence *)

Lemma lstrip_nonspace c t : is_space c = false -> lstrip (c :: t) = c :: t.
Proof. intros H. simpl. rewrite H. reflexivity. Qed.

Lemma lstrip_app_nonspace a c r :
  is_space c = false -> lstrip (a ++ c :: r) = lstrip a ++ c :: r.
Proof.
  intros Hc. induction a as [|x a IH]; simpl.
  - rewrite Hc. reflexivity.
  - destruct (is_space x); [exact IH | reflexivity].
Qed.

Lemma lstrip_idem t : lstrip (lstrip t) = lstrip t.
Proof.
  induction t as [|c t IH]; [reflexivity|]. simpl.
  destruct (is_space c) eqn:E; [exact IH|]. simpl. rewrite E. reflexivity.
Qed.

(** What [lstrip] removes is a white-space prefix. *)
Lemma lstrip_split t :
  exists ws, t = ws ++ lstrip t /\ forallb is_space ws = true.
Proof.
  induction t as [|c t (ws & E & H)]; [exists []; auto|]. simpl.
  destruct (is_space c) eqn:Hc.
  - exists (c :: ws). simpl. rewrite Hc, H, <- E. auto.
  - exists []. auto.
Qed.

Lemma rstrip_snoc_nonspace t c :
  is_space c = false -> rstrip (t ++ [c]) = t ++ [c].
Proof.
  intros Hc. unfold rstrip. rewrite rev_app_distr. simpl. rewrite Hc.
  simpl. rewrite rev_involutive. reflexivity.
Qed.

(** The result of [rstrip] is empty or ends with a visible character. *)
Lemma rstrip_end t :
  rstrip t = [] \/ exists r c, rstrip t = r ++ [c] /\ is_space c = false.
Proof.
  unfold rstrip. generalize (rev t). clear t. intros t.
  induction t as [|c t IH]; [left; reflexivity|]. simpl.
  destruct (is_space c) eqn:Hc; [exact IH|].
  right. exists (rev t), c. auto.
Qed.

Lemma strip_end t :
  strip t = [] \/ exists r c, strip t = r ++ [c] /\ is_space c = false.
Proof. apply rstrip_end. Qed.

Lemma strip_app_snoc_nonspace a r c :
  is_space c = false -> strip (a ++ r ++ [c]) = lstrip (a ++ r) ++ [c].
Proof.
  intros Hc. unfold strip. rewrite app_assoc.
  rewrite lstrip_app_nonspace by exact Hc.
  apply rstrip_snoc_nonspace, Hc.
Qed.

Lemma strip_snoc_nonspace r c :
  is_space c = false -> strip (r ++ [c]) = lstrip r ++ [c].
Proof. apply (strip_app_snoc_nonspace [] r c). Qed.

Lemma starts_with_app p x : starts_with p (p ++ x) = true.
Proof.
  induction p as [|a p IH]; [reflexivity|]. simpl. rewrite N.eqb_refl. exact IH.
Qed.

Lemma starts_with_extend p x y :
  starts_with p x = true -> starts_with p (x ++ y) = true.
Proof.
  revert x. induction p as [|a p IH]; intros [|b x]; simpl; auto;
    [discriminate|].
  intros H. apply andb_prop in H as [-> H]. apply IH, H.
Qed.

Lemma starts_with_split p t :
  starts_with p t = true -> t = p ++ drop (length p) t.
Proof.
  revert t. induction p as [|a p IH]; intros [|b t]; simpl; auto;
    [discriminate|].
  intros H. apply andb_prop in H as [Hab H]. apply N.eqb_eq in Hab. subst b.
  f_equal. apply IH, H.
Qed.

Lemma ends_with_app p x : ends_with p (x ++ p) = true.
Proof. unfold ends_with. rewrite rev_app_distr. apply starts_with_app. Qed.

Lemma backtick_nonspace : is_space BACKTICK = false.
Proof. reflexivity. Qed.

Lemma fence_close_snoc : fence_close = [BACKTICK; BACKTICK] ++ [BACKTICK].
Proof. reflexivity. Qed.

(** C2, as amended.  For every answer that begins with the opening fence
    and ends with the closing fence, both fences are removed and what is
    written is the text between them with its leading and trailing white
    space removed; nothing else is added, removed or changed. *)
Theorem post_process_strips_fences (inner : text) :
  post_process (fence_open ++ inner ++ fence_close) = strip inner.
Proof.
  unfold post_process.
  assert (Hs : forall x, strip (x ++ fence_close) = lstrip x ++ fence_close).
  { intros x. rewrite fence_close_snoc.
    rewrite (strip_app_snoc_nonspace x) by exact backtick_nonspace.
    rewrite lstrip_app_nonspace by exact backtick_nonspace.
    rewrite <- app_assoc. reflexivity. }
  assert (Ho : strip (fence_open ++ inner ++ fence_close)
               = fence_open ++ inner ++ fence_close).
  { rewrite (app_assoc fence_open), Hs.
    assert (lstrip (fence_open ++ inner) = fence_open ++ inner) as ->
      by reflexivity.
    rewrite <- app_assoc. reflexivity. }
  rewrite Ho, starts_with_app, drop_app_length, Hs.
  rewrite Hs, lstrip_idem, ends_with_app.
  rewrite length_app, Nat.add_sub, take_app_length.
  unfold strip. rewrite lstrip_idem. reflexivity.
Qed.

(** C2, as stated, fails: the white space at both ends of the fenced text,
    here the indentation of its only line, is not preserved. *)
Lemma post_process_fenced_not_verbatim :
  post_process (fence_open ++ ([NL] ++ txt "    x = 1" ++ [NL]) ++ fence_close)
  = txt "x = 1" /\
  txt "x = 1" <> [NL] ++ txt "    x = 1" ++ [NL].
Proof. split; [reflexivity | discriminate]. Qed.

(** C9.  When the stripped answer starts with the opening fence but does
    not end with a closing fence, the opening fence is removed all the
    same, and the white space around what remains is stripped. *)
Theorem post_process_open_fence_only (t : text) :
  starts_with fence_open (strip t) = true ->
  ends_with fence_close (strip t) = false ->
  post_process t = strip (drop (length fence_open) (strip t)).
Proof.
  intros Ho Hc. unfold post_process. rewrite Ho.
  pose proof (starts_with_split _ _ Ho) as E.
  remember (drop (length fence_open) (strip t)) as rest eqn:Erest.
  clear Erest.
  enough (ends_with fence_close (strip (strip rest)) = false) as -> by reflexivity.
  destruct rest as [|c' rest' _] using rev_ind; [reflexivity|].
  destruct (strip_end t) as [Hn | (r & c & Hr & Hsp)].
  { rewrite Hn in Ho. discriminate. }
  assert (c' = c) as ->.
  { rewrite Hr, app_assoc in E. apply app_inj_tail in E as [_ E]. auto. }
  rewrite !strip_snoc_nonspace by exact Hsp. rewrite lstrip_idem.
  destruct (ends_with fence_close (lstrip rest' ++ [c])) eqn:Hend; [|reflexivity].
  rewrite <- Hc, E. unfold ends_with in *.
  destruct (lstrip_split rest') as (ws & Ews & _).
  rewrite Ews at 1.
  replace (fence_open ++ (ws ++ lstrip rest') ++ [c])
    with ((fence_open ++ ws) ++ (lstrip rest' ++ [c]))
    by (rewrite <- !app_assoc; reflexivity).
  rewrite rev_app_distr. symmetry. apply starts_with_extend, Hend.
Qed.

Lemma post_process_open_fence_only_witness :
  starts_with fence_open (strip (txt " ```markdown" ++ [NL] ++ txt "a ")) = true /\
  ends_with fence_close (strip (txt " ```markdown" ++ [NL] ++ txt "a ")) = false /\
  post_process (txt " ```markdown" ++ [NL] ++ txt "a ")
  = strip (drop (length fence_open)
                (strip (txt " ```markdown" ++ [NL] ++ txt "a "))).
Proof.
  split; [reflexivity|]. split; [reflexivity|].
  apply (post_process_open_fence_only (txt " ```markdown" ++ [NL] ++ txt "a "));
    reflexivity.
Defined.

(** ** Paths and directories *)

Example basename_samples :
  basename "out/doc.md" = "doc.md"%string /\ basename "doc.md" = "doc.md"%string /\
  basename "out/" = ""%string /\ basename "out/." = "."%string /\
  names_directory "out/doc.md" = false /\ names_directory "out/" = true /\
  names_directory "out/.." = true.
Proof. repeat split; reflexivity. Qed.

Example normpath_samples :
  normpath "./doc.md" = "doc.md"%string /\ normpath "a//b/" = "a/b"%string /\
  normpath "a/../b" = "b"%string /\ normpath "/../a/./b" = "/a/b"%string /\
  normpath "//a" = "//a"%string /\ normpath "///a" = "/a"%string /\
  normpath "" = "."%string /\ normpath "a/b/../../.." = ".."%string.
Proof. repeat split; reflexivity. Qed.

(** Two spellings of one path have the same [abspath]. *)
Example abspath_samples :
  abspath (quiet_oracle network_down) "./doc.md" = "/work/doc.md"%string /\
  abspath (quiet_oracle network_down) "doc.md" = "/work/doc.md"%string /\
  abspath (quiet_oracle network_down) "/work/out/../doc.md" = "/work/doc.md"%string /\
  abspath (quiet_oracle network_down) "out/doc.md" = "/work/out/doc.md"%string.
Proof. repeat split; reflexivity. Qed.

(** [os.makedirs] makes the directories above the leaf that are missing,
    leaves behind those it made when it raises, and raises for a leaf that
    is there. *)
Example makedirs_samples :
  makedirs_from (quiet_oracle network_down) 5 "x/y/z" {[ "x"%string := Dir ]}
  = (None, <["x/y/z"%string := Dir]> (<["x/y"%string := Dir]> {[ "x"%string := Dir ]}))
  /\
  makedirs_from (quiet_oracle network_down) 5 "x" {[ "x"%string := Dir ]}
  = (Some (FileExistsError "x"), {[ "x"%string := Dir ]})
  /\
  makedirs_from (quiet_oracle network_down) 5 "f/g/h" {[ "f"%string := File [] ]}
  = (Some (NotADirectoryError "f/g"), {[ "f"%string := File [] ]})
  /\
  makedirs_from (quiet_oracle network_down) 4 "p/.." ∅
  = (Some (FileExistsError "p/.."), {[ "p"%string := Dir ]}).
Proof. repeat split; vm_compute; reflexivity. Qed.

Lemma length_string_of_list l :
  String.length (string_of_list_ascii l) = length l.
Proof. induction l as [|a l IH]; simpl; [reflexivity|]. rewrite IH. reflexivity. Qed.

Lemma length_list_of_string s :
  length (list_ascii_of_string s) = String.length s.
Proof. induction s as [|a s IH]; simpl; [reflexivity|]. rewrite IH. reflexivity. Qed.

Lemma list_ascii_of_string_app (a b : string) :
  list_ascii_of_string (a ++ b)
  = list_ascii_of_string a ++ list_ascii_of_string b.
Proof. induction a as [|c a IH]; simpl; [reflexivity|]. rewrite IH. reflexivity. Qed.

Lemma string_of_list_ascii_app (a b : list ascii) :
  string_of_list_ascii (a ++ b)
  = (string_of_list_ascii a ++ string_of_list_ascii b)%string.
Proof. induction a as [|c a IH]; simpl; [reflexivity|]. rewrite IH. reflexivity. Qed.

Lemma string_app_assoc (a b c : string) :
  ((a ++ b) ++ c = a ++ b ++ c)%string.
Proof.
  induction a as [|x a IH]; [reflexivity|]. exact (f_equal (String x) IH).
Qed.

Lemma string_app_inj (a b1 b2 : string) :
  (a ++ b1 = a ++ b2)%string -> b1 = b2.
Proof.
  induction a as [|c a IH]; simpl; [auto|]. intros [= H]. apply IH, H.
Qed.

Lemma prefix_app n b : String.prefix n (n ++ b) = true.
Proof.
  induction n as [|c n IH]; simpl; [destruct b; reflexivity|].
  destruct (ascii_dec c c); [exact IH|congruence].
Qed.

Lemma prefix_split a : forall k,
  String.prefix a k = true -> exists r, k = (a ++ r)%string.
Proof.
  induction a as [|c a IH]; intros k H.
  - exists k. reflexivity.
  - destruct k as [|c' k]; [discriminate|].
    change (String.prefix (String c a) (String c' k))
      with (if ascii_dec c c' then String.prefix a k else false) in H.
    destruct (ascii_dec c c') as [<- |]; [|discriminate].
    destruct (IH k H) as (r & ->). exists r. reflexivity.
Qed.

Lemma is_sep_eq a : is_sep a = true -> a = "/"%char.
Proof. unfold is_sep. apply Ascii.eqb_eq. Qed.

Lemma upto_last_sep_prefix l : exists r, l = upto_last_sep l ++ r.
Proof.
  induction l as [|a l (r & IH)]; [exists []; reflexivity|]. simpl.
  destruct (upto_last_sep l) as [|h0 h] eqn:E.
  - destruct (is_sep a); [exists l | exists (a :: l)]; reflexivity.
  - exists r. simpl. f_equal. exact IH.
Qed.

Lemma upto_last_sep_ends l :
  upto_last_sep l <> [] -> exists h, upto_last_sep l = h ++ ["/"%char].
Proof.
  induction l as [|a l IH]; [intros H; exfalso; apply H; reflexivity|]. simpl.
  destruct (upto_last_sep l) as [|h0 h] eqn:E.
  - destruct (is_sep a) eqn:Ha; [|intros H; exfalso; apply H; reflexivity].
    intros _. apply is_sep_eq in Ha. subst a. exists []. reflexivity.
  - intros _. destruct IH as (h' & IH); [discriminate|].
    exists (a :: h'). rewrite IH. reflexivity.
Qed.

Lemma upto_last_sep_all l : forallb is_sep l = true -> upto_last_sep l = l.
Proof.
  induction l as [|a l IH]; [reflexivity|]. simpl. intros H.
  apply andb_prop in H as [Ha H]. rewrite (IH H), Ha.
  destruct l; reflexivity.
Qed.

Lemma upto_last_sep_name n :
  forallb (fun a => negb (is_sep a)) n = true -> upto_last_sep n = [].
Proof.
  induction n as [|a n IH]; [reflexivity|]. simpl. intros H.
  apply andb_prop in H as [Ha H]. rewrite (IH H).
  destruct (is_sep a); [discriminate|reflexivity].
Qed.

Lemma upto_last_sep_app l n :
  forallb (fun a => negb (is_sep a)) n = true ->
  upto_last_sep (l ++ n) = upto_last_sep l.
Proof.
  intros H. induction l as [|a l IH]; simpl.
  - apply upto_last_sep_name, H.
  - rewrite IH. reflexivity.
Qed.

Lemma drop_seps_split l :
  exists s, l = s ++ drop_seps l /\ forallb is_sep s = true.
Proof.
  induction l as [|a l (s & IH & Hs)]; [exists []; auto|]. simpl.
  destruct (is_sep a) eqn:Ha.
  - exists (a :: s). simpl. rewrite Ha, Hs. split; [f_equal; exact IH | reflexivity].
  - exists []. auto.
Qed.

Lemma drop_seps_head l :
  drop_seps l = [] \/ exists c r, drop_seps l = c :: r /\ is_sep c = false.
Proof.
  induction l as [|a l IH]; [left; reflexivity|]. simpl.
  destruct (is_sep a) eqn:Ha; [exact IH|]. right. exists a, l. auto.
Qed.

Lemma length_drop_seps l : (length (drop_seps l) <= length l)%nat.
Proof.
  induction l as [|a l IH]; simpl; [lia|]. destruct (is_sep a); simpl; lia.
Qed.

Lemma dirname_eq p :
  dirname p = string_of_list_ascii (dirname_chars (list_ascii_of_string p)).
Proof. reflexivity. Qed.

Lemma basename_eq p :
  basename p
  = string_of_list_ascii
      (drop (length (upto_last_sep (list_ascii_of_string p)))
            (list_ascii_of_string p)).
Proof. reflexivity. Qed.

Lemma length_dirname_chars l :
  (length (dirname_chars l) <= length (upto_last_sep l))%nat.
Proof.
  unfold dirname_chars. destruct (forallb is_sep (upto_last_sep l)); [lia|].
  rewrite length_rev.
  etransitivity; [apply length_drop_seps|]. rewrite length_rev. lia.
Qed.

Lemma dirname_length_le p :
  (String.length (dirname p) <= String.length p)%nat.
Proof.
  rewrite dirname_eq, length_string_of_list, <- (length_list_of_string p).
  etransitivity; [apply length_dirname_chars|].
  destruct (upto_last_sep_prefix (list_ascii_of_string p)) as (r & E).
  rewrite E at 2. rewrite length_app. lia.
Qed.

Lemma string_of_list_nil l : string_of_list_ascii l = ""%string -> l = [].
Proof. destruct l; [reflexivity|discriminate]. Qed.

Lemma dirname_shorter p :
  basename p <> ""%string ->
  (String.length (dirname p) < String.length p)%nat.
Proof.
  intros Hb.
  rewrite dirname_eq, length_string_of_list, <- (length_list_of_string p).
  pose proof (length_dirname_chars (list_ascii_of_string p)) as Hd.
  destruct (upto_last_sep_prefix (list_ascii_of_string p)) as (r & E).
  rewrite basename_eq in Hb.
  assert (Hr : drop (length (upto_last_sep (list_ascii_of_string p)))
                 (list_ascii_of_string p) = r).
  { rewrite E at 2. apply drop_app_length. }
  rewrite Hr in Hb.
  destruct r as [|c r]; [exfalso; apply Hb; reflexivity|].
  rewrite E at 2. rewrite length_app. simpl. lia.
Qed.

Lemma all_seps_dirname p : all_seps p = true -> all_seps (dirname p) = true.
Proof.
  unfold all_seps. intros H. rewrite dirname_eq, list_ascii_of_string_of_list_ascii.
  unfold dirname_chars. rewrite (upto_last_sep_all _ H), H. exact H.
Qed.

Lemma all_seps_basename p : all_seps p = true -> basename p = ""%string.
Proof.
  unfold all_seps. intros H. rewrite basename_eq, (upto_last_sep_all _ H).
  rewrite drop_all. reflexivity.
Qed.

(** [os.path.dirname] gives no path that ends in a separator, the root
    apart. *)
Lemma dirname_no_trailing_sep p :
  basename (dirname p) = ""%string -> all_seps (dirname p) = true.
Proof.
  rewrite basename_eq, dirname_eq. unfold all_seps.
  rewrite !list_ascii_of_string_of_list_ascii.
  set (l := list_ascii_of_string p). unfold dirname_chars.
  destruct (forallb is_sep (upto_last_sep l)) eqn:Hall; [auto|].
  intros H.
  destruct (drop_seps_head (rev (upto_last_sep l))) as [E | (c & r & E & Hc)];
    rewrite E in *; [reflexivity|]. exfalso.
  simpl in H. apply string_of_list_nil in H.
  rewrite upto_last_sep_app in H by (simpl; rewrite Hc; reflexivity).
  destruct (upto_last_sep_prefix (rev r)) as (x & Ex).
  assert (Hlen : (length (upto_last_sep (rev r)) <= length (rev r))%nat)
    by (rewrite Ex at 2; rewrite length_app; lia).
  apply (f_equal length) in H. rewrite length_drop, length_app in H.
  simpl in H. lia.
Qed.

Lemma above_trans a b c :
  above a b = true -> above b c = true -> above a c = true.
Proof.
  unfold above. intros H1 H2.
  apply prefix_split in H1 as (r1 & ->). apply prefix_split in H2 as (r2 & ->).
  rewrite (string_app_assoc ((a ++ "/") ++ r1) "/" r2).
  rewrite (string_app_assoc (a ++ "/") r1). apply prefix_app.
Qed.

Lemma above_dirname p :
  dirname p <> ""%string -> all_seps (dirname p) = false ->
  above (dirname p) p = true.
Proof.
  unfold above, all_seps. rewrite dirname_eq.
  rewrite list_ascii_of_string_of_list_ascii.
  set (l := list_ascii_of_string p). unfold dirname_chars.
  destruct (forallb is_sep (upto_last_sep l)) eqn:Hall; [congruence|].
  intros _ _.
  destruct (upto_last_sep_ends l) as (h & Eh).
  { intros E. rewrite E in Hall. discriminate. }
  destruct (upto_last_sep_prefix l) as (r & El).
  rewrite Eh, rev_app_distr. simpl.
  destruct (drop_seps_split (rev h)) as (s & Es & Hs).
  assert (Eh' : h = rev (drop_seps (rev h)) ++ rev s).
  { rewrite <- rev_app_distr, <- Es, rev_involutive. reflexivity. }
  assert (Hp : p = (string_of_list_ascii (rev (drop_seps (rev h))) ++ "/"
                    ++ string_of_list_ascii (tl (rev s ++ ["/"%char]) ++ r))%string).
  { rewrite <- (string_of_list_ascii_of_string p). fold l.
    rewrite El, Eh. rewrite Eh' at 1.
    rewrite <- !app_assoc, string_of_list_ascii_app. f_equal.
    assert (Hx : exists y, rev s ++ ["/"%char] = "/"%char :: y).
    { destruct (rev s) as [|x y] eqn:Er; [exists []; reflexivity|].
      exists (y ++ ["/"%char]). simpl. f_equal.
      assert (Hin : In x (rev s)) by (rewrite Er; left; reflexivity).
      apply in_rev in Hin. rewrite forallb_forall in Hs.
      apply is_sep_eq, Hs, Hin. }
    destruct Hx as (y & Hy).
    rewrite app_assoc, Hy. simpl. reflexivity. }
  rewrite Hp. rewrite <- string_app_assoc. apply prefix_app.
Qed.

Lemma has_below_intro (f : gmap string node) a k n :
  f !! k = Some n -> above a k = true -> has_below f a = true.
Proof.
  intros Hk Ha. unfold has_below. apply existsb_exists.
  exists (k, n). split; [|exact Ha].
  apply list_elem_of_In, elem_of_map_to_list, Hk.
Qed.

(** ** [os.mkdir] and [os.makedirs] *)

Lemma mkdir_cases orc name f :
  (exists e, mkdir orc name f = (Some e, f)) \/
  (mkdir orc name f = (None, <[name := Dir]> f) /\ f !! name = None).
Proof.
  unfold mkdir.
  destruct (mkdir_fault orc name); [eauto|].
  destruct (f !! name) eqn:E; [eauto|].
  destruct (String.eqb name ""); [eauto|].
  destruct (all_seps name); [eauto|].
  destruct (negb (String.eqb (dirname name) "") && negb (dir_there f (dirname name)));
    [eauto|].
  destruct (f !! dirname name) as [[|]|]; [eauto|..];
    (destruct (String.eqb (basename name) "." || String.eqb (basename name) "..");
     [eauto | right; auto]).
Qed.

Lemma made_refl d f : made d f f.
Proof. intros p. left. reflexivity. Qed.

Lemma made_mkdir orc name f :
  made name f (snd (mkdir orc name f)).
Proof.
  destruct (mkdir_cases orc name f) as [(e & ->) | (-> & Hn)]; simpl.
  - apply made_refl.
  - intros p. destruct (decide (name = p)) as [<- |].
    + right. rewrite lookup_insert_eq. auto.
    + left. apply lookup_insert_ne. assumption.
Qed.

Lemma made_trans d1 d2 f1 f2 f3 :
  (String.length d1 <= String.length d2)%nat ->
  made d1 f1 f2 -> made d2 f2 f3 -> made d2 f1 f3.
Proof.
  intros Hd H12 H23 p.
  destruct (H12 p) as [E1 | (N1 & E1 & L1)], (H23 p) as [E2 | (N2 & E2 & L2)].
  - left. congruence.
  - right. rewrite <- E1. auto.
  - right. rewrite E2, E1. repeat split; auto. lia.
  - congruence.
Qed.

(** The pair that [os.makedirs] works with: [path.split(name)], taken
    again from the head when the tail is empty. *)
Lemma makedirs_head_le name :
  (String.length
     (fst (if String.eqb (basename name) ""
           then (dirname (dirname name), basename (dirname name))
           else (dirname name, basename name)))
   <= String.length name)%nat.
Proof.
  destruct (String.eqb (basename name) ""); simpl.
  - etransitivity; apply dirname_length_le.
  - apply dirname_length_le.
Qed.

Lemma makedirs_head_lt name :
  snd (if String.eqb (basename name) ""
       then (dirname (dirname name), basename (dirname name))
       else (dirname name, basename name)) <> ""%string ->
  (String.length
     (fst (if String.eqb (basename name) ""
           then (dirname (dirname name), basename (dirname name))
           else (dirname name, basename name)))
   < String.length name)%nat.
Proof.
  destruct (String.eqb (basename name) "") eqn:E; simpl; intros H.
  - apply dirname_shorter in H. pose proof (dirname_length_le name). lia.
  - apply dirname_shorter, H.
Qed.

(** Whatever [os.makedirs] does, it only adds directories. *)
Lemma makedirs_from_made orc fuel : forall name f,
  made name f (snd (makedirs_from orc fuel name f)).
Proof.
  induction fuel as [|fuel IH]; intros name f; simpl.
  - destruct (String.eqb (basename name) ""); apply made_mkdir.
  - pose proof (makedirs_head_le name) as Hle.
    destruct (if String.eqb (basename name) ""
              then (dirname (dirname name), basename (dirname name))
              else (dirname name, basename name)) as [head tail].
    simpl in Hle.
    destruct (negb (String.eqb head "") && negb (String.eqb tail "")
              && negb (dir_there f head)); [|apply made_mkdir].
    specialize (IH head f).
    destruct (makedirs_from orc fuel head f) as [[e|] f']; simpl in IH.
    + assert (Hm : made name f f').
      { eapply made_trans; [exact Hle | exact IH | apply made_refl]. }
      destruct e; try exact Hm;
        (destruct (String.eqb tail "."); [exact Hm|]);
        (eapply made_trans; [exact Hle | exact IH | apply made_mkdir]).
    + destruct (String.eqb tail ".").
      * eapply made_trans; [exact Hle | exact IH | apply made_refl].
      * eapply made_trans; [exact Hle | exact IH | apply made_mkdir].
Qed.


(** The length of the path is fuel enough: more fuel changes nothing. *)
Lemma makedirs_from_fuel orc : forall n m name f,
  (String.length name <= n)%nat -> (String.length name <= m)%nat ->
  makedirs_from orc n name f = makedirs_from orc m name f.
Proof.
  induction n as [|n IH]; intros m name f Hn Hm.
  - destruct name; [|simpl in Hn; lia]. destruct m; reflexivity.
  - destruct m as [|m].
    + destruct name; [reflexivity|simpl in Hm; lia].
    + simpl. pose proof (makedirs_head_lt name) as Hlt.
      destruct (if String.eqb (basename name) ""
                then (dirname (dirname name), basename (dirname name))
                else (dirname name, basename name)) as [head tail].
      simpl in Hlt.
      destruct (String.eqb tail "") eqn:Et.
      * rewrite andb_false_r. reflexivity.
      * destruct (negb (String.eqb head "") && negb false
                  && negb (dir_there f head)); [|reflexivity].
        apply String.eqb_neq in Et. specialize (Hlt Et).
        rewrite (IH m head f) by lia. reflexivity.
Qed.

(** Beside an entry that is there, [os.makedirs] makes at most the
    directory asked for: the directories above it are there. *)
Lemma makedirs_from_beside orc fuel fp n f p :
  f !! fp = Some n ->
  p <> dirname fp ->
  snd (makedirs_from orc fuel (dirname fp) f) !! p = f !! p.
Proof.
  intros Hfp Hp.
  assert (Hmk : snd (mkdir orc (dirname fp) f) !! p = f !! p).
  { destruct (mkdir_cases orc (dirname fp) f) as [(e & ->) | (-> & _)]; simpl;
      [reflexivity|]. apply lookup_insert_ne. congruence. }
  destruct fuel as [|fuel]; simpl.
  { destruct (String.eqb (basename (dirname fp)) ""); exact Hmk. }
  destruct (String.eqb (basename (dirname fp)) "") eqn:Eb.
  - apply String.eqb_eq, dirname_no_trailing_sep in Eb.
    unfold dir_there. rewrite (all_seps_dirname _ (all_seps_dirname _ Eb)).
    simpl. rewrite andb_false_r. exact Hmk.
  - destruct (String.eqb (dirname (dirname fp)) "") eqn:Eh; [exact Hmk|].
    simpl.
    assert (Hthere : dir_there f (dirname (dirname fp)) = true).
    { unfold dir_there.
      destruct (all_seps (dirname (dirname fp))) eqn:Ea; [reflexivity|]. simpl.
      destruct (f !! dirname (dirname fp)); [reflexivity|].
      apply String.eqb_neq in Eh, Eb.
      apply (has_below_intro f _ fp n Hfp).
      apply (above_trans _ (dirname fp)).
      - apply above_dirname; assumption.
      - apply above_dirname.
        + intros E. rewrite E in Eb. apply Eb. reflexivity.
        + destruct (all_seps (dirname fp)) eqn:Ea'; [|reflexivity].
          apply all_seps_basename in Ea'. congruence. }
    rewrite Hthere. simpl. rewrite andb_false_r. exact Hmk.
Qed.


Arguments makedirs_from : simpl never.
(** ** The pipeline *)

(** One step of symbolic execution: split on the innermost scrutinee. *)
Ltac run_step :=
  match goal with
  | |- context [match ?x with _ => _ end] =>
      lazymatch x with
      | context [match _ with _ => _ end] => fail
      | _ => destruct x eqn:?
      end
  end.

(** [os.makedirs] is not run step by step: its outcome is given a name,
    and [makedirs_from_made] tells what it can be. *)
Ltac run_makedirs :=
  match goal with
  | |- context [makedirs_from ?o ?n ?d ?f] =>
      let H := fresh "Hmade" in
      pose proof (makedirs_from_made o n d f) as H;
      destruct (makedirs_from o n d f) as [[?|] ?] eqn:?; simpl in H
  end.

Ltac unfold_script :=
  unfold process_file_with_gemini, ask_model, save_output, attempt, bind, ret,
    raise, print, path_exists, read_text, makedirs, write_text, parent_missing,
    names_directory, load_model, call_model, set_fs.

Ltac run_script :=
  unfold_script; repeat (simpl; try first [run_makedirs | run_step]); simpl.

(** An entry that is there is not changed by [os.makedirs]. *)
Ltac keep_entry :=
  match goal with
  | Hm : made _ ?f ?f' |- context [?f' !! ?p] =>
      destruct (Hm p) as [-> | (? & ? & ?)]
  end.

Lemma process_file_returns orc cfg fp op mn mk w :
  fst (process_file_with_gemini orc cfg fp op mn mk w) = Ok tt.
Proof. run_script; try reflexivity; congruence. Qed.

Lemma process_file_no_text orc cfg fp op mn mk raw w :
  fs w !! fp = Some (File raw) ->
  answer orc mn (request mk (normalize fp raw)) = None ->
  fs (snd (process_file_with_gemini orc cfg fp op mn mk w)) = fs w.
Proof.
  unfold answer, normalize, digipanp_cleanup. destruct w as [f env out].
  cbn [fs]. intros Hfp. unfold_script.
  repeat (simpl; rewrite ?Hfp; try (first [run_makedirs | run_step]; simplify_eq));
    simpl; intros; try reflexivity; discriminate.
Qed.

Lemma resolve_key_run orc w :
  exists key env l,
    resolve_key orc w = (Ok key, World (fs w) env (stdout w ++ l)).
Proof.
  destruct w as [f env out].
  unfold resolve_key, load_dotenv, getenv, attempt, bind, ret, print,
    set_environ.
  repeat (simpl; try run_step); simpl;
    try (eexists _, _, []; rewrite app_nil_r; reflexivity);
    try (eexists _, _, [_]; reflexivity); try discriminate.
Qed.

Lemma main_without_credential orc w :
  truthy (credential orc w) = false ->
  fst (main orc w) = Raise SystemExit /\ fs (snd (main orc w)) = fs w.
Proof.
  unfold credential, main, bind.
  destruct (resolve_key_run orc w) as (key & env & l & ->). simpl.
  intros ->. simpl. auto.
Qed.

(** C1.  When the remote call made for the document raises or its answer
    carries no text (the call being the one for the request built from the
    text of the input file), the job returns normally and leaves every file
    as it was, the one at the output path included; when the credential is
    missing, the script exits at once and leaves every file as it was. *)
Theorem failed_call_writes_nothing (orc : oracle) (w : world) :
  (forall cfg fp op mn mk raw,
      fs w !! fp = Some (File raw) ->
      answer orc mn (request mk (normalize fp raw)) = None ->
      fst (process_file_with_gemini orc cfg fp op mn mk w) = Ok tt /\
      fs (snd (process_file_with_gemini orc cfg fp op mn mk w)) = fs w)
  /\
  (truthy (credential orc w) = false ->
      fst (main orc w) = Raise SystemExit /\ fs (snd (main orc w)) = fs w).
Proof.
  split.
  - intros cfg fp op mn mk raw Hfp H. split.
    + apply process_file_returns.
    + apply (process_file_no_text orc cfg fp op mn mk raw); assumption.
  - apply main_without_credential.
Qed.

Lemma failed_call_writes_nothing_witness :
  (fs (sample_world "doc.md" ∅) !! "doc.md" = Some (File (txt "one<br>two")) /\
   answer (quiet_oracle network_down) MODEL_NAME
     (request CHUNK_SEPARATOR_MARKER (normalize "doc.md" (txt "one<br>two")))
   = None /\
   fst (process_file_with_gemini (quiet_oracle network_down) true
          "doc.md" "out/doc.md" MODEL_NAME CHUNK_SEPARATOR_MARKER
          (sample_world "doc.md" ∅)) = Ok tt /\
   fs (snd (process_file_with_gemini (quiet_oracle network_down) true
          "doc.md" "out/doc.md" MODEL_NAME CHUNK_SEPARATOR_MARKER
          (sample_world "doc.md" ∅)))
   = fs (sample_world "doc.md" ∅))
  /\
  (truthy (credential (quiet_oracle network_down) (sample_world "doc.md" ∅))
   = false /\
   fst (main (quiet_oracle network_down) (sample_world "doc.md" ∅))
   = Raise SystemExit /\
   fs (snd (main (quiet_oracle network_down) (sample_world "doc.md" ∅)))
   = fs (sample_world "doc.md" ∅)).
Proof.
  split.
  - split; [reflexivity|]. split; [reflexivity|].
    apply (proj1 (failed_call_writes_nothing (quiet_oracle network_down)
                    (sample_world "doc.md" ∅))
             true "doc.md"%string "out/doc.md"%string MODEL_NAME
             CHUNK_SEPARATOR_MARKER (txt "one<br>two"));
      reflexivity.
  - split; [vm_compute; reflexivity|].
    apply (proj2 (failed_call_writes_nothing (quiet_oracle network_down)
                    (sample_world "doc.md" ∅))).
    vm_compute. reflexivity.
Defined.

Ltac tidy_log :=
  repeat rewrite <- app_assoc; simpl app.

Lemma process_file_reports orc cfg fp op mn mk w :
  exists l,
    stdout (snd (process_file_with_gemini orc cfg fp op mn mk w))
    = stdout w ++ l /\
    forall f, failure_of orc cfg fp op mn mk w = Some f ->
              In (diagnostic fp f) l.
Proof.
  unfold failure_of, normalize, digipanp_cleanup. destruct w as [f env out].
  unfold_script.
  repeat (simpl; try (first [run_makedirs | run_step]; simplify_eq));
    simpl; tidy_log;
    (eexists; split; [reflexivity|]); intros k Hk; simplify_eq; simpl; try tauto.
Qed.

Lemma main_continues orc w key :
  credential orc w = Some key -> truthy (Some key) = true ->
  configure_fault orc key = None ->
  fst (main orc w) = Ok tt /\
  exists l, stdout (snd (main orc w)) = stdout w ++ l ++ closing_messages orc.
Proof.
  unfold credential, main. intros Hkey Htrue Hconf.
  destruct (resolve_key_run orc w) as (k & env & l0 & E).
  rewrite E in Hkey. simpl in Hkey. subst k.
  remember (process_file_with_gemini orc) as job eqn:Ejob.
  unfold bind, attempt, configure, print, ret, raise. rewrite E.
  rewrite Htrue. simpl. rewrite Hconf. simpl.
  match goal with
  | |- context [job ?c ?a ?b ?m ?k ?w0] =>
      pose proof (process_file_returns orc c a b m k w0) as Hr;
      destruct (process_file_reports orc c a b m k w0) as (l1 & Hl & _);
      rewrite <- Ejob in Hr, Hl;
      destruct (job c a b m k w0) as [r w1]
  end.
  simpl in Hr, Hl. subst r. simpl. rewrite Hl.
  split; [reflexivity|].
  exists (l0 ++ [MsgConfigured; MsgRunHeader] ++ l1).
  unfold closing_messages. repeat rewrite <- app_assoc. reflexivity.
Qed.

(** C6.  Whatever goes wrong in a job (configuration not completed, input
    file missing, read error, remote-call error, safety block, answer
    without text, write error), the job prints the message that reports it
    and returns normally, without raising; and the driver, once the
    credential is there and the client is configured, always runs on to its
    closing messages. *)
Theorem every_failure_is_reported (orc : oracle) (w : world) :
  (forall cfg fp op mn mk,
      fst (process_file_with_gemini orc cfg fp op mn mk w) = Ok tt /\
      exists l,
        stdout (snd (process_file_with_gemini orc cfg fp op mn mk w))
        = stdout w ++ l /\
        forall f, failure_of orc cfg fp op mn mk w = Some f ->
                  In (diagnostic fp f) l)
  /\
  (forall key,
      credential orc w = Some key -> truthy (Some key) = true ->
      configure_fault orc key = None ->
      fst (main orc w) = Ok tt /\
      exists l, stdout (snd (main orc w)) = stdout w ++ l ++ closing_messages orc).
Proof.
  split.
  - intros cfg fp op mn mk. split.
    + apply process_file_returns.
    + apply process_file_reports.
  - apply main_continues.
Qed.

Lemma every_failure_is_reported_witness :
  fst (main (quiet_oracle network_down)
         (sample_world "/work/AI-E-03/RAG/KIC_digiPanp.md"
            {[ KEY_NAME := "secret"%string ]})) = Ok tt /\
  exists l,
    stdout (snd (main (quiet_oracle network_down)
                   (sample_world "/work/AI-E-03/RAG/KIC_digiPanp.md"
                      {[ KEY_NAME := "secret"%string ]})))
    = stdout (sample_world "/work/AI-E-03/RAG/KIC_digiPanp.md"
                {[ KEY_NAME := "secret"%string ]})
      ++ l ++ closing_messages (quiet_oracle network_down).
Proof.
  apply (proj2 (every_failure_is_reported (quiet_oracle network_down)
                  (sample_world "/work/AI-E-03/RAG/KIC_digiPanp.md"
                     {[ KEY_NAME := "secret"%string ]})) "secret"%string);
    vm_compute; reflexivity.
Defined.

(** ** Lines 44-144: what one job touches *)

Lemma job_keeps_input orc cfg fp op mn mk w :
  op <> fp ->
  fs (snd (process_file_with_gemini orc cfg fp op mn mk w)) !! fp = fs w !! fp.
Proof.
  intros Hne. destruct w as [f env out].
  run_script; repeat (rewrite lookup_insert_ne; [|congruence]);
    try congruence; keep_entry; congruence.
Qed.





(** ** Lines 9-20: the credential *)

Lemma lookup_after_load (env : gmap string string)
    (b : gmap string (option string)) name :
  (env ∪ omap id b) !! name
  = match env !! name with
    | Some v => Some v
    | None => b !! name ≫= id
    end.
Proof.
  rewrite lookup_union, lookup_omap.
  destruct (env !! name), (b !! name ≫= id); reflexivity.
Qed.

(** C8, as amended.  The credential is the value of the first source that
    defines the variable, in the order: exported environment value,
    project-relative settings file, settings file addressed by absolute
    path; the last file is consulted only when the first two sources give
    no non-empty value, and when reading a settings file that is consulted
    raises, the credential is missing. *)
Theorem credential_precedence (orc : oracle) (w : world) :
  credential orc w = credential_by_precedence orc w.
Proof.
  unfold credential, credential_by_precedence, resolve_key, absolute_env_path,
    relative_env_path, load_dotenv, getenv, attempt, bind, ret, print,
    set_environ.
  destruct w as [f env out].
  destruct (dotenv_at orc "AI-E-03/.env") as [|e1|b1];
    destruct (dotenv_at orc (path_join (path_join (cwd orc) "AI-E-03") ".env"))
      as [|e2|b2];
    repeat (simpl; rewrite ?lookup_after_load; try run_step);
    simpl; rewrite ?lookup_after_load; simpl;
    try congruence; simpl in *; try congruence;
    repeat match goal with
           | H : context [String.eqb ?a ?b] |- _ => destruct (String.eqb a b)
           end; simpl in *; congruence.
Qed.

Example credential_samples :
  credential (settings_oracle (Bindings {[ KEY_NAME := Some "from-file"%string ]}))
    (sample_world "doc.md" ∅)
  = Some "from-file"%string /\
  credential (settings_oracle (Unreadable (Fault "permission denied")))
    (sample_world "doc.md" {[ KEY_NAME := "exported"%string ]})
  = None.
Proof. split; vm_compute; reflexivity. Qed.

(** C8, as stated, fails: with the variable exported and also bound in the
    project-relative settings file, the exported value is the credential,
    not the value of the file. *)
Lemma exported_value_wins :
  credential (settings_oracle (Bindings {[ KEY_NAME := Some "from-file"%string ]}))
    (sample_world "doc.md" {[ KEY_NAME := "exported"%string ]})
  = Some "exported"%string /\
  credential_as_claimed
    (settings_oracle (Bindings {[ KEY_NAME := Some "from-file"%string ]}))
    (sample_world "doc.md" {[ KEY_NAME := "exported"%string ]})
  = Some "from-file"%string.
Proof. split; vm_compute; reflexivity. Qed.


(** ** Lines 128-142: saving *)






(** In that run [os.makedirs] has made the directory above the one asked
    for as well. *)
Example missing_output_dir_sample :
  fs (snd (process_file_with_gemini (quiet_oracle (replies (txt "new"))) true
             "doc.md" "out/sub/doc.md" MODEL_NAME CHUNK_SEPARATOR_MARKER
             (sample_world "doc.md" ∅)))
  = <["out/sub/doc.md"%string := File (txt "new")]>
      (<["out/sub"%string := Dir]>
         (<["out"%string := Dir]> (fs (sample_world "doc.md" ∅)))).
Proof. vm_compute. reflexivity. Qed.

(** * Further properties of the code *)

(** ** Lines 68-73: what normalisation keeps and what it never does *)

Lemma sub_from_length p repl :
  (forall s n, match_here p s = Some (S n) -> (length repl <= S n)%nat) ->
  forall s k, (length (sub_from p repl k s) <= length s - k)%nat.
Proof.
  intros Hr. induction s as [|c s IH]; intros k; [simpl; lia|].
  destruct k as [|k]; simpl.
  - destruct (match_here p (c :: s)) as [[|n]|] eqn:E; simpl.
    + specialize (IH O). lia.
    + pose proof (match_here_le _ _ _ E) as Hle. simpl in Hle.
      apply Hr in E. rewrite length_app. specialize (IH n). lia.
    + specialize (IH O). lia.
  - apply IH.
Qed.

Lemma re_sub_length p repl s :
  (forall s n, match_here p s = Some (S n) -> (length repl <= S n)%nat) ->
  (length (re_sub p repl s) <= length s)%nat.
Proof.
  intros H. pose proof (sub_from_length p repl H s O) as Hl.
  unfold re_sub. lia.
Qed.

(** A pattern that starts with two single items never matches fewer than
    two characters. *)
Lemma match_two_items c1 c2 p s n :
  match_here (Item c1 One :: Item c2 One :: p) s = Some (S n) ->
  (2 <= S n)%nat.
Proof.
  destruct s as [|a [|b s]]; simpl; try discriminate.
  - destruct (c1 a); discriminate.
  - destruct (c1 a); [|discriminate]. destruct (c2 b); [|discriminate].
    destruct (match_here p s); simpl; [|discriminate].
    intros [= <-]. lia.
Qed.

Lemma match_blank_two s n :
  match_here blank_pattern s = Some (S n) -> (2 <= S n)%nat.
Proof.
  destruct s as [|c s]; [discriminate|]. rewrite match_blank_cons.
  destruct (lit NL c); [|discriminate].
  destruct (greedy is_space (match_here [Item (lit NL) One]) s) as [k|] eqn:E;
    simpl; [|discriminate].
  intros [= <-]. apply greedy_blank_some in E as (m & b & _ & _ & _ & ->). lia.
Qed.

(** Normalisation never makes the text longer, whatever the path. *)
Theorem normalize_never_longer (file_path : string) (raw_text : text) :
  (length (normalize file_path raw_text) <= length raw_text)%nat.
Proof.
  assert (Hbr : forall t, (length (replace_br t) <= length t)%nat).
  { intros t. apply re_sub_length. intros s n H.
    apply match_two_items in H. simpl. lia. }
  assert (Hbl : forall t, (length (collapse_blank t) <= length t)%nat).
  { intros t. apply re_sub_length. intros s n H.
    apply match_blank_two in H. simpl. lia. }
  assert (Himg : forall t, (length (remove_img t) <= length t)%nat).
  { intros t. apply re_sub_length. intros s n H. simpl. lia. }
  assert (Hz : forall t, (length (remove_zero t) <= length t)%nat).
  { intros t. apply re_sub_length. intros s n H.
    apply match_two_items in H. simpl. lia. }
  unfold normalize, digipanp_cleanup.
  pose proof (Hbr raw_text). pose proof (Hbl (replace_br raw_text)).
  pose proof (Himg (collapse_blank (replace_br raw_text))).
  pose proof (Hz (remove_img (collapse_blank (replace_br raw_text)))).
  destruct (is_digipanp file_path); lia.
Qed.

Lemma collapse_blank_keeps_no_blank_ahead b :
  no_blank_ahead b = true -> no_blank_ahead (collapse_blank b) = true.
Proof.
  induction b as [|c b IH]; intros H; [reflexivity|].
  cbn [no_blank_ahead] in H.
  assert (Hc : (c =? NL) = false).
  { destruct (is_space c) eqn:Hs; [|apply space_not_nl, Hs].
    destruct (c =? NL); [discriminate|reflexivity]. }
  unfold collapse_blank. rewrite re_sub_copy.
  - fold (collapse_blank b). cbn [no_blank_ahead]. rewrite Hc.
    destruct (is_space c); [|reflexivity]. rewrite Hc in H. apply IH, H.
  - rewrite match_blank_cons, lit_false by exact Hc. reflexivity.
Qed.

(** Line 69 is idempotent: collapsing the blank lines of a text that has
    been through it already changes nothing. *)
Theorem collapse_blank_idempotent (t : text) :
  collapse_blank (collapse_blank t) = collapse_blank t.
Proof.
  remember (length t) as n eqn:Hn. revert t Hn.
  induction n as [n IH] using lt_wf_ind. intros [|c s] Hn; [reflexivity|].
  destruct (match_here blank_pattern (c :: s)) as [k|] eqn:E.
  - destruct (match_blank_some _ _ E) as (m & b & Et & Hm & Hb).
    rewrite Et, collapse_blank_block by assumption. simpl app.
    pose proof (collapse_blank_block [] (collapse_blank b) eq_refl
                  (collapse_blank_keeps_no_blank_ahead b Hb)) as E2.
    simpl app in E2. rewrite E2. do 2 f_equal. apply (IH (length b)); [|reflexivity].
    subst n. rewrite Et. simpl. rewrite length_app. simpl. lia.
  - unfold collapse_blank at 2 3. rewrite re_sub_copy by exact E.
    fold (collapse_blank s). unfold collapse_blank at 1.
    rewrite re_sub_copy.
    + fold (collapse_blank (collapse_blank s)). f_equal.
      apply (IH (length s)); [subst n; simpl; lia | reflexivity].
    + rewrite match_blank_cons in *. destruct (lit NL c); [|reflexivity].
      destruct (greedy is_space (match_here [Item (lit NL) One]) s) eqn:G;
        [discriminate|].
      rewrite greedy_blank_none; [reflexivity|].
      apply collapse_blank_keeps_no_blank_ahead, greedy_blank_none_inv, G.
Qed.

(** After line 69 the text holds no run of three newlines, and for a path
    outside the special category neither does the normalised text. *)
Theorem no_run_of_three_newlines (file_path : string) (raw_text : text) :
  has_run3 (collapse_blank (replace_br raw_text)) = false /\
  (is_digipanp file_path = false ->
   has_run3 (normalize file_path raw_text) = false).
Proof.
  split; [apply collapse_blank_no_run3|].
  intros H. unfold normalize. rewrite H. apply collapse_blank_no_run3.
Qed.

Lemma no_run_of_three_newlines_witness :
  is_digipanp "RAG/notes.md" = false /\
  has_run3 (normalize "RAG/notes.md" (txt "a<br><br><br><br>b")) = false.
Proof.
  split; [reflexivity|].
  apply (proj2 (no_run_of_three_newlines "RAG/notes.md"
                  (txt "a<br><br><br><br>b"))).
  reflexivity.
Defined.

(** Text that holds neither [<] nor a newline passes through normalisation
    unchanged, whatever the path. *)
Theorem normalize_plain_text (file_path : string) (t : text) :
  forallb (fun c => negb (c =? LT) && negb (c =? NL)) t = true ->
  normalize file_path t = t.
Proof.
  intros H.
  assert (Hlt : forallb (fun c => negb (lit LT c)) t = true).
  { rewrite forallb_forall in *. intros x Hx. specialize (H x Hx).
    apply andb_prop in H as [H _]. unfold lit. rewrite N.eqb_sym. exact H. }
  assert (Hnl : forallb (fun c => negb (lit NL c)) t = true).
  { rewrite forallb_forall in *. intros x Hx. specialize (H x Hx).
    apply andb_prop in H as [_ H]. unfold lit. rewrite N.eqb_sym. exact H. }
  assert (Hskip : forall cls p repl,
             forallb (fun c => negb (cls c)) t = true ->
             re_sub (Item cls One :: p) repl t = t).
  { intros cls p repl Hc. pose proof (re_sub_skip cls p repl t [] Hc) as E.
    rewrite !app_nil_r in E. exact E. }
  unfold normalize, digipanp_cleanup, replace_br, collapse_blank, remove_img,
    remove_zero, br_pattern, blank_pattern, img_pattern, zero_pattern.
  rewrite (Hskip _ _ _ Hlt), (Hskip _ _ _ Hnl).
  destruct (is_digipanp file_path); [|reflexivity].
  rewrite (Hskip _ _ _ Hlt), (Hskip _ _ _ Hnl). reflexivity.
Qed.

Lemma normalize_plain_text_witness :
  forallb (fun c => negb (c =? LT) && negb (c =? NL)) (txt "1 > 0, a & b") = true /\
  normalize "RAG/KIC_digiPanp.md" (txt "1 > 0, a & b") = txt "1 > 0, a & b".
Proof.
  split; [reflexivity|].
  apply (normalize_plain_text "RAG/KIC_digiPanp.md" (txt "1 > 0, a & b")).
  reflexivity.
Defined.

(** *** No line-break tag is left by line 68 *)

Lemma replace_br_other c s :
  (c =? LT) = false -> replace_br (c :: s) = c :: replace_br s.
Proof.
  intros H. unfold replace_br. apply re_sub_copy.
  unfold br_pattern. rewrite match_here_one, lit_false by exact H. reflexivity.
Qed.

Lemma replace_br_lt_head s :
  exists h r, replace_br (LT :: s) = h :: r /\ (h = NL \/ h = LT).
Proof.
  unfold replace_br.
  destruct (match_here br_pattern (LT :: s)) as [[|n]|] eqn:E.
  - exfalso. revert E. apply match_here_nonempty. simpl. auto.
  - rewrite (re_sub_replace _ _ _ _ E). eexists _, _.
    split; [reflexivity | auto].
  - rewrite re_sub_copy by exact E. eexists _, _.
    split; [reflexivity | auto].
Qed.

(** Characters other than [<] and the newline at the head of the result
    were at the head of the text already. *)
Lemma replace_br_head_copied l : forall s,
  forallb (fun x => negb (x =? NL) && negb (x =? LT)) l = true ->
  starts_with l (replace_br s) = true -> starts_with l s = true.
Proof.
  induction l as [|x l IH]; intros s Hl; [reflexivity|].
  simpl in Hl. apply andb_prop in Hl as [Hx Hl].
  apply andb_prop in Hx as [Hnl Hlt].
  apply negb_true_iff in Hnl, Hlt.
  destruct s as [|c s]; [discriminate|].
  destruct (c =? LT) eqn:Hc.
  - apply N.eqb_eq in Hc. subst c.
    destruct (replace_br_lt_head s) as (h & r & -> & [-> | ->]);
      cbn [starts_with]; rewrite ?Hnl, ?Hlt; discriminate.
  - rewrite replace_br_other by exact Hc. cbn [starts_with].
    intros H. apply andb_prop in H as [-> H]. apply IH; assumption.
Qed.

Lemma take_starts_with n l (x : text) :
  take n x = l -> starts_with l x = true.
Proof.
  intros <-. rewrite <- (take_drop n x) at 2. apply starts_with_app.
Qed.

Lemma br_tag_at_head_cases c x :
  br_tag_at_head (c :: x) = true ->
  c = LT /\
  exists b r, (b = 98 \/ b = 66) /\ (r = 114 \/ r = 82) /\
              (starts_with [b; r; GT] x = true \/
               starts_with [b; r; SLASH; GT] x = true).
Proof.
  unfold br_tag_at_head. intros H. apply orb_prop in H as [H | H];
    apply is_br_tag_cases in H as (b & r & Hb & Hr & [E | E]);
    simpl take in E.
  - injection E as -> E. split; [reflexivity|]. exists b, r.
    repeat split; auto. left. apply (take_starts_with 3), E.
  - apply (f_equal length) in E. simpl in E. rewrite length_take in E. lia.
  - injection E as -> E. split; [reflexivity|]. exists b, r.
    repeat split; auto. left. apply (take_starts_with 4), E.
  - injection E as -> E. split; [reflexivity|]. exists b, r.
    repeat split; auto. right. apply (take_starts_with 4), E.
Qed.

Lemma match_br_at_tag b r s :
  (b = 98 \/ b = 66) -> (r = 114 \/ r = 82) ->
  starts_with [b; r; GT] s = true \/ starts_with [b; r; SLASH; GT] s = true ->
  match_here br_pattern (LT :: s) <> None.
Proof.
  intros Hb Hr [H | H]; apply starts_with_split in H; rewrite H;
    destruct Hb as [-> | ->], Hr as [-> | ->]; discriminate.
Qed.

(** After line 68 no literal [<br>] or [<br/>] tag, in whatever mix of
    cases, is left in the text. *)
Theorem replace_br_leaves_no_tag (t : text) :
  has_br_tag (replace_br t) = false.
Proof.
  remember (length t) as n eqn:Hn. revert t Hn.
  induction n as [n IH] using lt_wf_ind. intros [|c s] Hn; [reflexivity|].
  assert (Hhead : forall h r, (h =? LT) = false ->
                              br_tag_at_head (h :: r) = false).
  { intros h r Hh. destruct (br_tag_at_head (h :: r)) eqn:E; [|reflexivity].
    apply br_tag_at_head_cases in E as [-> _]. discriminate. }
  destruct (match_here br_pattern (c :: s)) as [k|] eqn:E.
  - destruct k as [|k]; [exfalso; revert E; apply match_here_nonempty; simpl; auto|].
    unfold replace_br. rewrite (re_sub_replace _ _ _ _ E).
    fold (replace_br (drop (S k) (c :: s))). simpl app.
    cbn [has_br_tag]. rewrite Hhead by reflexivity. simpl orb.
    apply (IH (length (drop (S k) (c :: s)))); [|reflexivity].
    subst n. rewrite length_drop. simpl. lia.
  - unfold replace_br. rewrite re_sub_copy by exact E.
    fold (replace_br s). cbn [has_br_tag].
    rewrite (IH (length s)); [| subst n; simpl; lia | reflexivity].
    rewrite orb_false_r.
    destruct (br_tag_at_head (c :: replace_br s)) eqn:Ht; [|reflexivity].
    exfalso. apply br_tag_at_head_cases in Ht
      as (-> & b & r & Hb & Hr & Hs).
    apply (match_br_at_tag b r s Hb Hr); [|exact E].
    destruct Hs as [Hs | Hs]; [left | right];
      (apply replace_br_head_copied; [|exact Hs]);
      destruct Hb as [-> | ->], Hr as [-> | ->]; reflexivity.
Qed.

Example has_br_tag_samples :
  has_br_tag (txt "a<BR/>b") = true /\ has_br_tag (txt "a<br") = false /\
  has_br_tag (replace_br (txt "a<br<br>>e")) = false.
Proof. repeat split. Qed.

(** ** Line 70: the special-category test *)

Lemma str_lower_app a b :
  str_lower (a ++ b) = (str_lower a ++ str_lower b)%string.
Proof. induction a as [|c a IH]; simpl; [reflexivity|]. rewrite IH. reflexivity. Qed.

Lemma str_contains_eq n s :
  str_contains n s
  = String.prefix n s ||
    match s with
    | EmptyString => false
    | String _ s' => str_contains n s'
    end.
Proof. destruct s; reflexivity. Qed.

Lemma str_contains_app n a b : str_contains n (a ++ n ++ b) = true.
Proof.
  induction a as [|c a IH].
  - change ("" ++ n ++ b)%string with (n ++ b)%string.
    rewrite str_contains_eq, prefix_app. reflexivity.
  - change (String c a ++ n ++ b)%string with (String c (a ++ n ++ b)).
    rewrite str_contains_eq, IH. apply orb_true_r.
Qed.

Lemma prefix_lower_split n : forall p,
  String.prefix n (str_lower p) = true ->
  exists m b, p = (m ++ b)%string /\ str_lower m = n.
Proof.
  induction n as [|c n IH]; intros p H.
  - exists ""%string, p. auto.
  - destruct p as [|d p]; [discriminate|]. simpl in H.
    destruct (ascii_dec c (lower_ascii d)) as [-> |]; [|discriminate].
    destruct (IH p H) as (m & b & -> & <-).
    exists (String d m), b. auto.
Qed.

Lemma str_contains_lower_split n : forall p,
  str_contains n (str_lower p) = true ->
  exists a m b, p = (a ++ m ++ b)%string /\ str_lower m = n.
Proof.
  induction p as [|d p IH]; intros H.
  - simpl in H. rewrite orb_false_r in H.
    apply (prefix_lower_split n ""%string) in H as (m & b & E & Hm).
    exists ""%string, m, b. auto.
  - cbn [str_lower str_contains] in H. apply orb_prop in H as [H | H].
    + apply (prefix_lower_split n (String d p)) in H as (m & b & E & Hm).
      exists ""%string, m, b. auto.
    + destruct (IH H) as (a & m & b & -> & Hm).
      exists (String d a), m, b. auto.
Qed.

(** A path is in the special category exactly when the word [digipanp], in
    any mix of upper and lower case, stands anywhere in it: in the file
    name or in the name of a directory above it. *)
Theorem is_digipanp_anywhere (file_path : string) :
  is_digipanp file_path = true <->
  exists a m b, file_path = (a ++ m ++ b)%string /\
                str_lower m = "digipanp"%string.
Proof.
  unfold is_digipanp. split.
  - apply str_contains_lower_split.
  - intros (a & m & b & -> & Hm).
    rewrite !str_lower_app, Hm. apply str_contains_app.
Qed.

Lemma is_digipanp_anywhere_witness :
  (exists a m b, "DigiPanp_old/notes.md"%string = (a ++ m ++ b)%string /\
                 str_lower m = "digipanp"%string) /\
  is_digipanp "DigiPanp_old/notes.md" = true.
Proof.
  assert (H : exists a m b,
             "DigiPanp_old/notes.md"%string = (a ++ m ++ b)%string /\
             str_lower m = "digipanp"%string).
  { exists ""%string, "DigiPanp"%string, "_old/notes.md"%string.
    split; reflexivity. }
  split; [exact H|].
  apply (proj2 (is_digipanp_anywhere "DigiPanp_old/notes.md")). exact H.
Defined.

(** ** Lines 123-126: what post-processing never does *)

Lemma segment_refl t : segment_of t t.
Proof. exists [], []. rewrite app_nil_r. reflexivity. Qed.

Lemma segment_trans s t u : segment_of s t -> segment_of t u -> segment_of s u.
Proof.
  intros (a & b & ->) (c & d & ->). exists (c ++ a), (b ++ d).
  rewrite <- !app_assoc. reflexivity.
Qed.

Lemma segment_lstrip t : segment_of (lstrip t) t.
Proof.
  destruct (lstrip_split t) as (ws & E & _). exists ws, [].
  rewrite app_nil_r. exact E.
Qed.

Lemma segment_rstrip t : segment_of (rstrip t) t.
Proof.
  unfold rstrip. destruct (lstrip_split (rev t)) as (ws & E & _).
  exists [], (rev ws). simpl. rewrite <- rev_app_distr, <- E, rev_involutive.
  reflexivity.
Qed.

Lemma segment_strip t : segment_of (strip t) t.
Proof.
  unfold strip. eapply segment_trans; [apply segment_rstrip | apply segment_lstrip].
Qed.

Lemma segment_drop n (t : text) : segment_of (drop n t) t.
Proof. exists (take n t), []. rewrite app_nil_r, take_drop. reflexivity. Qed.

Lemma segment_take n (t : text) : segment_of (take n t) t.
Proof. exists [], (drop n t). simpl. rewrite take_drop. reflexivity. Qed.

(** Post-processing only cuts at the two ends: what is written is always a
    contiguous part of the answer of the model; no character is added,
    altered or taken out of the middle. *)
Theorem post_process_segment (generated_text : text) :
  segment_of (post_process generated_text) generated_text.
Proof.
  unfold post_process.
  destruct (starts_with fence_open (strip generated_text));
    [|apply segment_refl].
  set (g := strip (drop (length fence_open) (strip generated_text))).
  assert (Hg : segment_of g generated_text).
  { unfold g. eapply segment_trans; [apply segment_strip|].
    eapply segment_trans; [apply segment_drop | apply segment_strip]. }
  destruct (ends_with fence_close (strip g)); [|exact Hg].
  eapply segment_trans; [apply segment_strip|].
  eapply segment_trans; [apply segment_take|].
  eapply segment_trans; [apply segment_strip | exact Hg].
Qed.

(** ** Lines 44-144: what one job leaves alone *)


Lemma job_keeps_environ orc cfg fp op mn mk w :
  environ (snd (process_file_with_gemini orc cfg fp op mn mk w)) = environ w.
Proof. destruct w as [f env out]. run_script; reflexivity. Qed.



(** ** Lines 128-142: writing into an existing place *)







(** ** Lines 49-65: the remote model is not reached before the input is read *)

(** When the client is not configured or the input cannot be read, the
    outcome of the job is the same whatever the remote model would do: the
    job ends before the call. *)
Theorem no_call_without_input (orc : oracle) (cfg : bool)
    (fp op mn : string) (mk : text) (w : world)
    (mf : string -> option error) (g : string -> text -> api_outcome) :
  cfg = false \/ (forall raw, fst (read_text orc fp w) <> Ok raw) ->
  process_file_with_gemini (with_remote orc mf g) cfg fp op mn mk w
  = process_file_with_gemini orc cfg fp op mn mk w.
Proof.
  intros [-> | H]; [reflexivity|].
  destruct w as [f env out]. revert H.
  unfold process_file_with_gemini, attempt, bind, ret, print, path_exists,
    read_text. simpl.
  destruct cfg; simpl; [|reflexivity].
  destruct (f !! fp) as [[raw|]|] eqn:Efp; simpl; intros H;
    try reflexivity;
    destruct (read_fault orc fp) eqn:Er; simpl in *;
    repeat (progress (rewrite ?Efp, ?Er); simpl); try reflexivity.
  exfalso. apply (H raw). reflexivity.
Qed.

Lemma no_call_without_input_witness :
  (forall raw,
      fst (read_text (quiet_oracle network_down) "missing.md"
             (sample_world "doc.md" ∅)) <> Ok raw) /\
  process_file_with_gemini
    (with_remote (quiet_oracle network_down) (fun _ => None)
       (fun _ _ => replies (txt "new")))
    true "missing.md" "out.md" MODEL_NAME CHUNK_SEPARATOR_MARKER
    (sample_world "doc.md" ∅)
  = process_file_with_gemini (quiet_oracle network_down)
      true "missing.md" "out.md" MODEL_NAME CHUNK_SEPARATOR_MARKER
      (sample_world "doc.md" ∅).
Proof.
  assert (H : forall raw,
             fst (read_text (quiet_oracle network_down) "missing.md"
                    (sample_world "doc.md" ∅)) <> Ok raw)
    by (intros raw; vm_compute; discriminate).
  split; [exact H|].
  apply (no_call_without_input (quiet_oracle network_down) true
           "missing.md" "out.md" MODEL_NAME CHUNK_SEPARATOR_MARKER
           (sample_world "doc.md" ∅) (fun _ => None)
           (fun _ _ => replies (txt "new"))).
  right. exact H.
Defined.

(** ** Lines 9-35 and 147-177: the script as a whole *)

Lemma resolve_key_cases orc w :
  exists key env l,
    resolve_key orc w = (Ok key, World (fs w) env (stdout w ++ l)) /\
    (forall k v, environ w !! k = Some v -> env !! k = Some v) /\
    (l = [] \/ exists e, l = [MsgDotenvWarning e]).
Proof.
  destruct w as [f env out].
  unfold resolve_key, load_dotenv, getenv, attempt, bind, ret, print,
    set_environ.
  repeat (simpl; try run_step); simpl; try discriminate;
    try (eexists _, _, []; rewrite app_nil_r; split; [reflexivity|]);
    try (eexists _, _, [_]; split; [reflexivity|]);
    (split; [| eauto]); intros k v Hk;
    repeat (apply lookup_union_Some_l); exact Hk.
Qed.

Lemma main_cases orc w :
  exists key env l0,
    resolve_key orc w = (Ok key, World (fs w) env (stdout w ++ l0)) /\
    (forall k v, environ w !! k = Some v -> env !! k = Some v) /\
    (l0 = [] \/ exists e, l0 = [MsgDotenvWarning e]) /\
    ((truthy key = false /\
      main orc w
      = (Raise SystemExit, World (fs w) env (stdout w ++ l0 ++ [MsgKeyMissing])))
     \/
     (exists k e,
         key = Some k /\ truthy key = true /\ configure_fault orc k = Some e /\
         main orc w
         = (Raise SystemExit,
            World (fs w) env (stdout w ++ l0 ++ [MsgConfigureFailed e])))
     \/
     (exists k w1,
         key = Some k /\ truthy key = true /\ configure_fault orc k = None /\
         w1 = snd (process_file_with_gemini orc true (digipanp_file_path orc)
                     (digipanp_marked_path orc) MODEL_NAME
                     CHUNK_SEPARATOR_MARKER
                     (World (fs w) env
                        (stdout w ++ l0 ++ [MsgConfigured; MsgRunHeader]))) /\
         main orc w
         = (Ok tt, World (fs w1) (environ w1)
                     (stdout w1 ++ closing_messages orc)))).
Proof.
  destruct (resolve_key_cases orc w) as (key & env & l0 & E & Henv & Hl).
  exists key, env, l0. repeat (split; [assumption|]).
  unfold main. remember (process_file_with_gemini orc) as job eqn:Ejob.
  unfold bind, attempt, configure, print, ret, raise. rewrite E.
  destruct (truthy key) eqn:Ht; simpl.
  - right. destruct key as [k|]; [|discriminate]. simpl.
    destruct (configure_fault orc k) as [e|] eqn:Ec; simpl.
    + left. exists k, e. repeat (split; [reflexivity || assumption|]).
      rewrite <- app_assoc. reflexivity.
    + right. rewrite <- !app_assoc. simpl app.
      match goal with
      | |- context [job ?c ?a ?b ?m ?x ?w0] =>
          pose proof (process_file_returns orc c a b m x w0) as Hr;
          rewrite <- Ejob in Hr;
          destruct (job c a b m x w0) as [r w1] eqn:Ej
      end.
      simpl in Hr. subst r. exists k, w1.
      repeat (split; [reflexivity || assumption|]).
      simpl. unfold closing_messages. rewrite <- !app_assoc. reflexivity.
  - left. split; [reflexivity|]. rewrite <- app_assoc. reflexivity.
Qed.




Lemma job_log_live orc fp op mn mk w :
  exists l,
    stdout (snd (process_file_with_gemini orc true fp op mn mk w))
    = stdout w ++ l /\
    ~ In MsgSkipped l /\ ~ In MsgNotConfigured l.
Proof.
  destruct w as [f env out].
  run_script; tidy_log; (eexists; split; [reflexivity|]);
    simpl; split; intuition discriminate.
Qed.

(** Two messages of the script are never printed by it: the refusal of a
    job for want of configuration (line 50) and the notice that processing
    was skipped (line 177).  The script exits before it could reach either. *)
Theorem script_never_skips (orc : oracle) (w : world) :
  exists l,
    stdout (snd (main orc w)) = stdout w ++ l /\
    ~ In MsgSkipped l /\ ~ In MsgNotConfigured l.
Proof.
  destruct (main_cases orc w) as (key & env & l0 & _ & _ & Hl & H).
  assert (Hl0 : ~ In MsgSkipped l0 /\ ~ In MsgNotConfigured l0).
  { destruct Hl as [-> | (e & ->)]; simpl; split; intuition discriminate. }
  destruct Hl0 as [Hs Hn].
  destruct H as [(_ & ->) | [(k & e & _ & _ & _ & ->)
                           | (k & w1 & _ & _ & _ & Hw1 & ->)]]; simpl.
  - exists (l0 ++ [MsgKeyMissing]). split; [reflexivity|].
    rewrite !in_app_iff. simpl. split; intuition discriminate.
  - exists (l0 ++ [MsgConfigureFailed e]). split; [reflexivity|].
    rewrite !in_app_iff. simpl. split; intuition discriminate.
  - match type of Hw1 with
    | _ = snd (process_file_with_gemini _ _ ?a ?b ?m ?x ?w0) =>
        destruct (job_log_live orc a b m x w0) as (l1 & E1 & Hs1 & Hn1)
    end.
    rewrite <- Hw1 in E1. simpl in E1. rewrite E1.
    exists ((l0 ++ [MsgConfigured; MsgRunHeader]) ++ l1 ++ closing_messages orc).
    split; [rewrite <- !app_assoc; reflexivity|].
    unfold closing_messages. rewrite !in_app_iff. simpl.
    split; intuition discriminate.
Qed.

(** When reading the project-relative settings file raises, the script
    warns, takes the credential to be missing and exits, whether or not the
    variable is exported and whatever the other settings file holds. *)
Theorem unreadable_settings_file_stops_script (orc : oracle) (w : world)
    (e : error) :
  dotenv_at orc relative_env_path = Unreadable e ->
  main orc w
  = (Raise SystemExit,
     World (fs w) (environ w) (stdout w ++ [MsgDotenvWarning e; MsgKeyMissing])).
Proof.
  unfold relative_env_path. intros H. destruct w as [f env out].
  unfold main, resolve_key, load_dotenv, attempt, bind, print, ret, raise.
  rewrite H. simpl. rewrite <- app_assoc. reflexivity.
Qed.

Lemma unreadable_settings_file_stops_script_witness :
  dotenv_at (settings_oracle (Unreadable (Fault "permission denied")))
    relative_env_path
  = Unreadable (Fault "permission denied") /\
  main (settings_oracle (Unreadable (Fault "permission denied")))
    (sample_world "doc.md" {[ KEY_NAME := "exported"%string ]})
  = (Raise SystemExit,
     World (fs (sample_world "doc.md" {[ KEY_NAME := "exported"%string ]}))
       (environ (sample_world "doc.md" {[ KEY_NAME := "exported"%string ]}))
       (stdout (sample_world "doc.md" {[ KEY_NAME := "exported"%string ]})
        ++ [MsgDotenvWarning (Fault "permission denied"); MsgKeyMissing])).
Proof.
  split; [reflexivity|].
  apply (unreadable_settings_file_stops_script
           (settings_oracle (Unreadable (Fault "permission denied")))
           (sample_world "doc.md" {[ KEY_NAME := "exported"%string ]})
           (Fault "permission denied")).
  reflexivity.
Defined.

Lemma credential_empty_export orc w :
  environ w !! KEY_NAME = Some ""%string -> truthy (credential orc w) = false.
Proof.
  unfold credential, resolve_key, load_dotenv, getenv, attempt, bind, ret,
    print, set_environ.
  destruct w as [f env out]. simpl. intros Hk.
  destruct (dotenv_at orc "AI-E-03/.env") as [|e1|b1];
    destruct (dotenv_at orc (path_join (path_join (cwd orc) "AI-E-03") ".env"))
      as [|e2|b2];
    repeat (simpl; rewrite ?lookup_after_load, ?Hk); reflexivity.
Qed.

(** An exported but empty [GOOGLE_API_KEY] stops the script: the settings
    files cannot replace it, so the credential counts as missing and the
    script exits with the file system as it was. *)
Theorem empty_exported_key_stops_script (orc : oracle) (w : world) :
  environ w !! KEY_NAME = Some ""%string ->
  fst (main orc w) = Raise SystemExit /\ fs (snd (main orc w)) = fs w.
Proof.
  intros H. apply main_without_credential, credential_empty_export, H.
Qed.

Lemma empty_exported_key_stops_script_witness :
  environ (sample_world "doc.md" {[ KEY_NAME := ""%string ]}) !! KEY_NAME
  = Some ""%string /\
  fst (main (settings_oracle (Bindings {[ KEY_NAME := Some "from-file"%string ]}))
         (sample_world "doc.md" {[ KEY_NAME := ""%string ]}))
  = Raise SystemExit /\
  fs (snd (main (settings_oracle
                   (Bindings {[ KEY_NAME := Some "from-file"%string ]}))
             (sample_world "doc.md" {[ KEY_NAME := ""%string ]})))
  = fs (sample_world "doc.md" {[ KEY_NAME := ""%string ]}).
Proof.
  split; [reflexivity|].
  apply (empty_exported_key_stops_script
           (settings_oracle (Bindings {[ KEY_NAME := Some "from-file"%string ]}))
           (sample_world "doc.md" {[ KEY_NAME := ""%string ]})).
  reflexivity.
Defined.

(** The script never changes a variable that is already in the
    environment: whatever the settings files say, every variable set
    before the run has the same value after it. *)
Theorem script_keeps_environment (orc : oracle) (w : world) (k v : string) :
  environ w !! k = Some v ->
  environ (snd (main orc w)) !! k = Some v.
Proof.
  intros Hk.
  destruct (main_cases orc w) as (key & env & l0 & _ & Henv & _ & H).
  apply Henv in Hk.
  destruct H as [(_ & ->) | [(k' & e & _ & _ & _ & ->)
                           | (k' & w1 & _ & _ & _ & Hw1 & ->)]];
    cbn [snd environ]; try exact Hk.
  rewrite Hw1, job_keeps_environ. exact Hk.
Qed.

Lemma script_keeps_environment_witness :
  environ (sample_world "doc.md" {[ KEY_NAME := "exported"%string ]}) !! KEY_NAME
  = Some "exported"%string /\
  environ (snd (main (settings_oracle
                        (Bindings {[ KEY_NAME := Some "from-file"%string ]}))
                  (sample_world "doc.md" {[ KEY_NAME := "exported"%string ]})))
    !! KEY_NAME
  = Some "exported"%string.
Proof.
  split; [reflexivity|].
  apply (script_keeps_environment
           (settings_oracle (Bindings {[ KEY_NAME := Some "from-file"%string ]}))
           (sample_world "doc.md" {[ KEY_NAME := "exported"%string ]})
           KEY_NAME "exported"%string).
  reflexivity.
Defined.

(** ** Lines 147-155: where the script writes *)

Lemma dirname_app_name (d n : string) :
  forallb (fun a => negb (is_sep a)) (list_ascii_of_string n) = true ->
  dirname (d ++ n) = dirname d.
Proof.
  intros H. unfold dirname.
  rewrite list_ascii_of_string_app, upto_last_sep_app by exact H. reflexivity.
Qed.

(** A file name put under a directory with [os.path.join] has a [dirname]
    that does not depend on the file name. *)
Lemma dirname_join_name (d n1 n2 : string) :
  forallb (fun a => negb (is_sep a)) (list_ascii_of_string n1) = true ->
  forallb (fun a => negb (is_sep a)) (list_ascii_of_string n2) = true ->
  dirname (path_join d n1) = dirname (path_join d n2).
Proof.
  intros H1 H2. unfold path_join.
  assert (Hp : forall n,
             forallb (fun a => negb (is_sep a)) (list_ascii_of_string n) = true ->
             String.prefix "/" n = false).
  { intros [|c n] H; [reflexivity|].
    change (String.prefix "/" (String c n))
      with (if ascii_dec "/" c then String.prefix "" n else false).
    destruct (ascii_dec "/" c) as [<- |]; [|reflexivity].
    simpl in H. discriminate. }
  rewrite (Hp n1 H1), (Hp n2 H2).
  destruct (last (list_ascii_of_string d)) as [c|].
  - destruct (is_sep c).
    + rewrite (dirname_app_name d n1 H1), (dirname_app_name d n2 H2).
      reflexivity.
    + rewrite <- !(string_app_assoc d "/").
      rewrite (dirname_app_name _ n1 H1), (dirname_app_name _ n2 H2).
      reflexivity.
  - exact (eq_trans (dirname_app_name "" n1 H1)
                    (eq_sym (dirname_app_name "" n2 H2))).
Qed.

(** The script writes its output beside its input: the output path and the
    input path have the same directory, whatever the working directory. *)
Theorem script_writes_beside_input (orc : oracle) :
  dirname (digipanp_marked_path orc) = dirname (digipanp_file_path orc).
Proof.
  unfold digipanp_marked_path, digipanp_file_path, rag_path.
  apply dirname_join_name; reflexivity.
Qed.

(** ** Lines 147-165: what the script touches *)

Lemma marked_path_differs orc :
  digipanp_marked_path orc <> digipanp_file_path orc.
Proof.
  unfold digipanp_marked_path, digipanp_file_path, rag_path.
  generalize (path_join (path_join (cwd orc) "AI-E-03") "RAG"). intros d.
  unfold path_join. simpl String.prefix. cbv iota.
  destruct (last (list_ascii_of_string d)) as [c|]; [|discriminate].
  destruct (is_sep c); intros H; apply string_app_inj in H; discriminate.
Qed.

(** Beside its input, a job makes no directory but the one of the output
    path: the directories above it hold the input, so they are there. *)
Lemma job_frame_beside orc cfg fp op mn mk w p :
  dirname op = dirname fp -> p <> op -> p <> dirname op ->
  fs (snd (process_file_with_gemini orc cfg fp op mn mk w)) !! p = fs w !! p.
Proof.
  intros Hd H1 H2. rewrite Hd in H2. destruct w as [f env out].
  unfold_script. rewrite Hd. simpl.
  destruct cfg; simpl; [|reflexivity].
  destruct (f !! fp) as [n|] eqn:Efp; simpl; [|reflexivity].
  pose proof (fun k => makedirs_from_beside orc k fp n f p Efp H2) as Hb.
  repeat (simpl;
          try first
            [ match goal with
              | |- context [makedirs_from ?o ?k ?d ?g] =>
                  let H := fresh "Hbeside" in
                  pose proof (Hb k) as H;
                  destruct (makedirs_from o k d g) as [[?|] ?] eqn:?;
                  simpl in H
              end
            | run_step ]);
    simpl; repeat (rewrite lookup_insert_ne; [|congruence]); congruence.
Qed.

(** The script as it stands never modifies its source document, and changes
    nothing in the file system except the entry at its output path and the
    entry of the directory of that path. *)
Theorem script_touches_only_output (orc : oracle) (w : world) :
  fs (snd (main orc w)) !! digipanp_file_path orc
  = fs w !! digipanp_file_path orc
  /\
  (forall p,
      p <> digipanp_marked_path orc ->
      p <> dirname (digipanp_marked_path orc) ->
      fs (snd (main orc w)) !! p = fs w !! p).
Proof.
  destruct (main_cases orc w) as (key & env & l0 & _ & _ & _ & H).
  destruct H as [(_ & ->) | [(k' & e & _ & _ & _ & ->)
                           | (k' & w1 & _ & _ & _ & Hw1 & ->)]];
    cbn [snd fs]; [auto | auto |].
  rewrite Hw1. split.
  - rewrite job_keeps_input by apply marked_path_differs. reflexivity.
  - intros p H1 H2. rewrite job_frame_beside; try assumption; [reflexivity|].
    unfold digipanp_marked_path, digipanp_file_path, rag_path.
    apply dirname_join_name; reflexivity.
Qed.

Lemma script_touches_only_output_witness :
  "/work/AI-E-03/RAG/KIC_digiPanp.md"%string
  <> digipanp_marked_path (quiet_oracle (replies (txt "new"))) /\
  fs (snd (main (quiet_oracle (replies (txt "new")))
             (sample_world "/work/AI-E-03/RAG/KIC_digiPanp.md"
                {[ KEY_NAME := "secret"%string ]})))
    !! "/work/AI-E-03/RAG/KIC_digiPanp.md"
  = fs (sample_world "/work/AI-E-03/RAG/KIC_digiPanp.md"
          {[ KEY_NAME := "secret"%string ]})
      !! "/work/AI-E-03/RAG/KIC_digiPanp.md".
Proof.
  split; [vm_compute; discriminate|].
  apply (proj2 (script_touches_only_output (quiet_oracle (replies (txt "new")))
                  (sample_world "/work/AI-E-03/RAG/KIC_digiPanp.md"
                     {[ KEY_NAME := "secret"%string ]}))
           "/work/AI-E-03/RAG/KIC_digiPanp.md"%string);
    vm_compute; discriminate.
Defined.

(** ** Lines 118-144: what the messages of a job tell *)

(** The report of the save is truthful: whenever a job prints that the
    result was saved, the input was read, the model answered with a text,
    and the output file holds that answer, post-processed. *)
Theorem saved_message_is_truthful (orc : oracle) (cfg : bool)
    (fp op mn : string) (mk : text) (w : world) :
  exists l,
    stdout (snd (process_file_with_gemini orc cfg fp op mn mk w))
    = stdout w ++ l /\
    (In (MsgSaved op) l ->
     exists raw t,
       fs w !! fp = Some (File raw) /\
       answer orc mn (request mk (normalize fp raw)) = Some t /\
       fs (snd (process_file_with_gemini orc cfg fp op mn mk w)) !! op
       = Some (File (post_process t))).
Proof.
  unfold answer, normalize, digipanp_cleanup. destruct w as [f env out].
  unfold_script.
  repeat (simpl; try (first [run_makedirs | run_step]; simplify_eq));
    simpl; tidy_log;
    (eexists; split; [reflexivity|]); simpl; intros Hin;
    try (exfalso; intuition discriminate);
    eexists _, _; (split; [reflexivity|]);
    repeat match goal with
           | H : _ = _ |- _ => rewrite H
           end; simpl;
    (split; [reflexivity|]); apply lookup_insert_eq.
Qed.

Lemma saved_message_is_truthful_witness :
  exists raw t,
    fs (sample_world "doc.md" ∅) !! "doc.md" = Some (File raw) /\
    answer (quiet_oracle (replies (txt "new"))) MODEL_NAME
      (request CHUNK_SEPARATOR_MARKER (normalize "doc.md" raw)) = Some t /\
    fs (snd (process_file_with_gemini (quiet_oracle (replies (txt "new"))) true
               "doc.md" "out.md" MODEL_NAME CHUNK_SEPARATOR_MARKER
               (sample_world "doc.md" ∅))) !! "out.md"
    = Some (File (post_process t)).
Proof.
  destruct (saved_message_is_truthful (quiet_oracle (replies (txt "new"))) true
              "doc.md" "out.md" MODEL_NAME CHUNK_SEPARATOR_MARKER
              (sample_world "doc.md" ∅)) as (l & E & H).
  apply H. vm_compute in E. subst l. simpl. tauto.
Defined.

(** ** Lines 130-142: a directory that cannot be made *)



(** The directories that [os.makedirs] made before it raised stay: the job
    does nothing about them. *)
Example failed_makedirs_leaves_directories :
  fs (snd (process_file_with_gemini
             (with_remote
                {| cwd := "/work";
                   dotenv_at := fun _ => NoFile;
                   configure_fault := fun _ => None;
                   model_fault := fun _ => None;
                   generate_content := fun _ _ => network_down;
                   read_fault := fun _ => None;
                   mkdir_fault := fun d =>
                     if String.eqb d "out/sub" then Some (Fault "quota")
                     else None;
                   open_fault := fun _ => None;
                   write_fault := fun _ _ => None |}
                (fun _ => None) (fun _ _ => replies (txt "new")))
             true "doc.md" "out/sub/doc.md" MODEL_NAME CHUNK_SEPARATOR_MARKER
             (sample_world "doc.md" ∅)))
  = <["out"%string := Dir]> (fs (sample_world "doc.md" ∅)).
Proof. vm_compute. reflexivity. Qed.

(** ** Lines 123-126: a fenced answer is written without outer white space *)

Lemma lstrip_head t :
  lstrip t = [] \/ exists c r, lstrip t = c :: r /\ is_space c = false.
Proof.
  induction t as [|c t IH]; [left; reflexivity|]. simpl.
  destruct (is_space c) eqn:Hc; [exact IH|]. right. eauto.
Qed.

Lemma rstrip_cons_nonspace c t :
  is_space c = false -> rstrip (c :: t) = c :: rstrip t.
Proof.
  intros Hc. unfold rstrip. simpl rev.
  rewrite lstrip_app_nonspace by exact Hc. rewrite rev_app_distr. reflexivity.
Qed.

Lemma strip_idempotent t : strip (strip t) = strip t.
Proof.
  unfold strip at 2 3.
  destruct (lstrip_head t) as [-> | (c & r & -> & Hc)]; [reflexivity|].
  rewrite rstrip_cons_nonspace by exact Hc.
  unfold strip. rewrite lstrip_nonspace by exact Hc.
  destruct (rstrip_end r) as [-> | (r' & c' & E & Hc')].
  - unfold rstrip. simpl. rewrite Hc. reflexivity.
  - rewrite E. change (c :: r' ++ [c']) with ((c :: r') ++ [c']).
    apply rstrip_snoc_nonspace, Hc'.
Qed.

(** When the stripped answer starts with the opening fence, what is
    written has no white space at either end: stripping it again changes
    nothing. *)
Theorem fenced_answer_is_stripped (generated_text : text) :
  starts_with fence_open (strip generated_text) = true ->
  strip (post_process generated_text) = post_process generated_text.
Proof.
  intros H. unfold post_process. rewrite H.
  destruct (ends_with fence_close _); apply strip_idempotent.
Qed.

Lemma fenced_answer_is_stripped_witness :
  starts_with fence_open
    (strip (txt "```markdown" ++ [NL] ++ txt "a" ++ [NL] ++ txt "```" ++ [NL]))
  = true /\
  strip (post_process
           (txt "```markdown" ++ [NL] ++ txt "a" ++ [NL] ++ txt "```" ++ [NL]))
  = post_process
      (txt "```markdown" ++ [NL] ++ txt "a" ++ [NL] ++ txt "```" ++ [NL]).
Proof.
  split; [reflexivity|].
  apply (fenced_answer_is_stripped
           (txt "```markdown" ++ [NL] ++ txt "a" ++ [NL] ++ txt "```" ++ [NL])).
  reflexivity.
Defined.
